(** * SM4 block cipher and SM4-GCM: a shallow embedding of the Python sources

    The development follows [src/src/sm4_basic.py], [src/src/sm4_optimized.py]
    and [src/src/sm4_gcm.py].  Python integers are unbounded, so words are
    plain [Z] and every mask of the source ([& 0xFFFFFFFF], [& 0xFF]) is
    written out.  A [bytes] value is a list of integers in [0, 256).
    Exceptions are values of [exn]; a method that may raise returns
    [result A].  Attributes that an [__init__] assigns late are [option]
    fields: reading one that is still missing raises [AttributeError], as it
    does in Python. *)

From Stdlib Require Import String ZArith List Lia Bool Btauto.
Import ListNotations.
Local Open Scope Z_scope.

(** ** Python values, exceptions and built-ins *)

Module Py.

(** A [bytes] object: a list of integers, each in [0, 256) when the object
    is well formed ([is_bytes] below). *)
Abbreviation bytes := (list Z) (only parsing).

(** The [ValueError]s of the repository, told apart by the place that raises
    them (the source tells them apart by message). *)
Inductive value_error :=
| KeyLength        (* sm4_basic.py, line 12 *)
| BlockLengthEnc   (* sm4_basic.py, line 108 *)
| BlockLengthDec   (* sm4_basic.py, line 138 *)
| TagLength        (* sm4_gcm.py, line 150 *)
| AuthFailed.      (* sm4_gcm.py, line 165 *)

Inductive exn :=
| ValueError (why : value_error)
| AttributeError (attr : string)
| IndexError
| OverflowError.

Definition result (A : Type) : Type := (exn + A)%type.

Definition ret {A} (a : A) : result A := inr a.
Definition raise {A} (e : exn) : result A := inl e.
Definition bind {A B} (m : result A) (f : A -> result B) : result B :=
  match m with
  | inl e => inl e
  | inr a => f a
  end.

(** [self.name] on an attribute that may not have been assigned yet. *)
Definition getattr {A} (name : string) (field : option A) : result A :=
  match field with
  | Some v => inr v
  | None => inl (AttributeError name)
  end.

(** [l[i]] on a list: negative indices count from the end. *)
Definition getitem {A} (l : list A) (i : Z) : result A :=
  let n := Z.of_nat (length l) in
  let j := if i <? 0 then i + n else i in
  if (0 <=? j) && (j <? n)
  then match nth_error l (Z.to_nat j) with
       | Some v => inr v
       | None => inl IndexError
       end
  else inl IndexError.

(** [l[i] = v] for an index inside the list; the callers only use those. *)
Fixpoint setitem {A} (l : list A) (i : nat) (v : A) : list A :=
  match l, i with
  | [], _ => []
  | _ :: t, O => v :: t
  | h :: t, S i' => h :: setitem t i' v
  end.

(** [l[a:b]] for [0 <= a <= b]. *)
Definition slice {A} (l : list A) (a b : nat) : list A :=
  firstn (b - a) (skipn a l).

(** [l[:n]] for any integer [n]: a negative [n] drops [-n] items at the end. *)
Definition slice_to {A} (l : list A) (n : Z) : list A :=
  if n <? 0 then firstn (length l - Z.to_nat (- n)) l
  else firstn (Z.to_nat n) l.

(** [int.from_bytes(b, byteorder='big')] *)
Definition int_from_bytes (b : bytes) : Z :=
  fold_left (fun acc x => acc * 256 + x) b 0.

Fixpoint be_digits (n : nat) (x : Z) : bytes :=
  match n with
  | O => []
  | S n' => be_digits n' (x / 256) ++ [x mod 256]
  end.

(** [x.to_bytes(n, byteorder='big')] raises [OverflowError] when [x] is
    negative or does not fit in [n] bytes. *)
Definition int_to_bytes (x : Z) (n : nat) : result bytes :=
  if (0 <=? x) && (x <? 256 ^ Z.of_nat n)
  then inr (be_digits n x)
  else inl OverflowError.

(** [bytes([a ^ b for a, b in zip(xs, ys)])] *)
Definition xor_bytes (xs ys : bytes) : bytes :=
  map (fun p => Z.lxor (fst p) (snd p)) (combine xs ys).

(** [range(n)] *)
Definition range (n : nat) : list Z := map Z.of_nat (seq 0 n).

(** [range(0, n, 16)]: the offsets 0, 16, 32, ... below [n]. *)
Definition range16 (n : nat) : list nat :=
  map (fun k => (16 * k)%nat) (seq 0 ((n + 15) / 16)).

(** A [for] loop whose body may raise: the state is threaded through. *)
Fixpoint for_each {I S} (items : list I) (body : I -> S -> result S) (s : S)
  : result S :=
  match items with
  | [] => inr s
  | i :: rest =>
      match body i s with
      | inl e => inl e
      | inr s' => for_each rest body s'
      end
  end.

(** A well-formed [bytes] object. *)
Definition is_bytes (b : bytes) : bool :=
  forallb (fun x => (0 <=? x) && (x <? 256)) b.

End Py.

Import Py.

Declare Scope py_scope.
Notation "x <- m ;; k" := (bind m (fun x => k))
  (at level 61, m at next level, right associativity) : py_scope.
Local Open Scope py_scope.
Local Open Scope string_scope.
Local Open Scope list_scope.
Local Open Scope Z_scope.

(** ** sm4_basic.py and sm4_optimized.py: the cipher objects *)

(** The class of [self].  [SM4Optimized] inherits every method of [SM4] and
    overrides [_t_function] only, so the class decides which [_t_function] a
    call [self._t_function(...)] reaches, wherever the call is written. *)
Inductive sm4_class := Basic | Optimized.

(** The instance attributes.  [Sbox], [FK] and [CK] are assigned the same
    literals in every instance before any method runs and are never written
    again; they are constants below.  [round_keys] is assigned at the end of
    [SM4.__init__], [T_table] by [_precompute_tables]. *)
Record SM4_obj := mk_SM4 {
  cls : sm4_class;
  key : bytes;
  round_keys : option (list Z);
  T_table : option (list (list Z))
}.

Module SM4.

Definition Sbox : list Z := [
  0xd6; 0x90; 0xe9; 0xfe; 0xcc; 0xe1; 0x3d; 0xb7; 0x16; 0xb6; 0x14; 0xc2; 0x28; 0xfb; 0x2c; 0x05;
  0x2b; 0x67; 0x9a; 0x76; 0x2a; 0xbe; 0x04; 0xc3; 0xaa; 0x44; 0x13; 0x26; 0x49; 0x86; 0x06; 0x99;
  0x9c; 0x42; 0x50; 0xf4; 0x91; 0xef; 0x98; 0x7a; 0x33; 0x54; 0x0b; 0x43; 0xed; 0xcf; 0xac; 0x62;
  0xe4; 0xb3; 0x1c; 0xa9; 0xc9; 0x08; 0xe8; 0x95; 0x80; 0xdf; 0x94; 0xfa; 0x75; 0x8f; 0x3f; 0xa6;
  0x47; 0x07; 0xa7; 0xfc; 0xf3; 0x73; 0x17; 0xba; 0x83; 0x59; 0x3c; 0x19; 0xe6; 0x85; 0x4f; 0xa8;
  0x68; 0x6b; 0x81; 0xb2; 0x71; 0x64; 0xda; 0x8b; 0xf8; 0xeb; 0x0f; 0x4b; 0x70; 0x56; 0x9d; 0x35;
  0x1e; 0x24; 0x0e; 0x5e; 0x63; 0x58; 0xd1; 0xa2; 0x25; 0x22; 0x7c; 0x3b; 0x01; 0x0d; 0x2d; 0x02;
  0x1f; 0x55; 0x82; 0xd5; 0x40; 0xc7; 0x31; 0xa1; 0x74; 0x03; 0xf7; 0xf2; 0xce; 0xf9; 0x61; 0x15;
  0xa0; 0x38; 0xe0; 0x41; 0x7f; 0x00; 0x2e; 0xee; 0xb8; 0x56; 0x0c; 0xbc; 0xd2; 0x79; 0x20; 0x9f;
  0xb4; 0x5b; 0x6a; 0xcb; 0xbe; 0x39; 0x4a; 0x4c; 0x58; 0x27; 0x31; 0xd6; 0x1e; 0x14; 0x6c; 0x48;
  0x97; 0xc2; 0x0a; 0xf1; 0x6e; 0x3d; 0x29; 0x2b; 0x07; 0x5b; 0xbb; 0x43; 0x96; 0x42; 0x06; 0x8f;
  0x0c; 0x7d; 0x37; 0x21; 0x12; 0x7a; 0x60; 0x59; 0xcb; 0xcc; 0x83; 0x3e; 0x0b; 0x49; 0x03; 0xf0;
  0x13; 0x8a; 0x9d; 0x81; 0x5f; 0xdb; 0xa4; 0x45; 0x9b; 0x73; 0x28; 0x20; 0x95; 0x66; 0x94; 0x3b;
  0x09; 0xe3; 0x6f; 0x57; 0x44; 0x5c; 0x36; 0x02; 0xe0; 0x01; 0x11; 0x72; 0x90; 0xd8; 0x84; 0x10;
  0x87; 0xec; 0x1f; 0x88; 0x05; 0x5a; 0x65; 0x89; 0x51; 0x92; 0x1c; 0x75; 0xca; 0x1d; 0x04; 0x2f;
  0x2a; 0x50; 0x86; 0x9a; 0x1b; 0x7b; 0x46; 0x47; 0x98; 0xa3; 0x6d; 0x23; 0x0f; 0x5e; 0x7e; 0xc1
].

Definition FK : list Z := [0xA3B1BAC6; 0x56AA3350; 0x677D9197; 0xB27022DC].

Definition CK : list Z := [
  0x00070e15; 0x1c232a31; 0x383f464d; 0x545b6269;
  0x70777e85; 0x8c939aa1; 0xa8afb6bd; 0xc4cbd2d9;
  0xe0e7eef5; 0xfc030a11; 0x181f262d; 0x343b4249;
  0x50575e65; 0x6c737a81; 0x888f969d; 0xa4abb2b9;
  0xc0c7ced5; 0xdce3eaf1; 0xf8ff060d; 0x141b2229;
  0x30373e45; 0x4c535a61; 0x686f767d; 0x848b9299;
  0xa0a7aeb5; 0xbcc3cad1; 0xd8dfe6ed; 0xf4fb0209;
  0x10171e25; 0x2c333a41; 0x484f565d; 0x646b7279
].

(** [((x << n) & 0xFFFFFFFF) | ((x >> (32 - n)) & 0xFFFFFFFF)] *)
Definition _rotate_left (x n : Z) : Z :=
  Z.lor (Z.land (Z.shiftl x n) 0xFFFFFFFF)
        (Z.land (Z.shiftr x (32 - n)) 0xFFFFFFFF).

Definition _sbox (x : Z) : result Z := getitem Sbox x.

(** The linear transform at the end of [SM4._t_function] (line 76). *)
Definition linear (x : Z) : Z :=
  Z.lxor (Z.lxor (Z.lxor (Z.lxor x (_rotate_left x 2)) (_rotate_left x 10))
                 (_rotate_left x 18))
         (_rotate_left x 24).

(** [SM4._t_function] as written in sm4_basic.py. *)
Definition _t_function (x : Z) : result Z :=
  let x0 := Z.land (Z.shiftr x 24) 0xFF in
  let x1 := Z.land (Z.shiftr x 16) 0xFF in
  let x2 := Z.land (Z.shiftr x 8) 0xFF in
  let x3 := Z.land x 0xFF in
  x0 <- _sbox x0;;
  x1 <- _sbox x1;;
  x2 <- _sbox x2;;
  x3 <- _sbox x3;;
  let x := Z.lor (Z.lor (Z.lor (Z.shiftl x0 24) (Z.shiftl x1 16))
                        (Z.shiftl x2 8)) x3 in
  ret (linear x).

End SM4.

Module SM4Optimized.

(** [SM4Optimized._t_function]: four look-ups in [self.T_table]. *)
Definition _t_function (self : SM4_obj) (x : Z) : result Z :=
  let x0 := Z.land (Z.shiftr x 24) 0xFF in
  let x1 := Z.land (Z.shiftr x 16) 0xFF in
  let x2 := Z.land (Z.shiftr x 8) 0xFF in
  let x3 := Z.land x 0xFF in
  tbl <- getattr "T_table" (T_table self);;
  t0 <- getitem tbl 0;;
  v0 <- getitem t0 x0;;
  t1 <- getitem tbl 1;;
  v1 <- getitem t1 x1;;
  t2 <- getitem tbl 2;;
  v2 <- getitem t2 x2;;
  t3 <- getitem tbl 3;;
  v3 <- getitem t3 x3;;
  ret (Z.lxor (Z.lxor (Z.lxor v0 v1) v2) v3).

End SM4Optimized.

(** [self._t_function(x)]: method resolution by the class of [self]. *)
Definition call_t_function (self : SM4_obj) (x : Z) : result Z :=
  match cls self with
  | Basic => SM4._t_function x
  | Optimized => SM4Optimized._t_function self x
  end.

(** ** Methods of [SM4], inherited unchanged by [SM4Optimized] *)

Definition words : Type := (Z * Z * Z * Z)%type.

(** [(b[4*i] << 24) | (b[4*i+1] << 16) | (b[4*i+2] << 8) | b[4*i+3]] *)
Definition load_word (b : bytes) (i : Z) : result Z :=
  b0 <- getitem b (4 * i);;
  b1 <- getitem b (4 * i + 1);;
  b2 <- getitem b (4 * i + 2);;
  b3 <- getitem b (4 * i + 3);;
  ret (Z.lor (Z.lor (Z.lor (Z.shiftl b0 24) (Z.shiftl b1 16)) (Z.shiftl b2 8)) b3).

(** The loop [for i in range(4): X.append(...)], unrolled. *)
Definition load_words (b : bytes) : result words :=
  w0 <- load_word b 0;;
  w1 <- load_word b 1;;
  w2 <- load_word b 2;;
  w3 <- load_word b 3;;
  ret (w0, w1, w2, w3).

(** The reverse transform and the packing into 16 bytes (lines 121-133). *)
Definition store_words (X : words) : bytes :=
  let '(x0, x1, x2, x3) := X in
  let c := Z.lor (Z.lor (Z.lor (Z.shiftl x3 96) (Z.shiftl x2 64)) (Z.shiftl x1 32)) x0 in
  [ Z.land (Z.shiftr c 120) 0xFF; Z.land (Z.shiftr c 112) 0xFF;
    Z.land (Z.shiftr c 104) 0xFF; Z.land (Z.shiftr c 96) 0xFF;
    Z.land (Z.shiftr c 88) 0xFF; Z.land (Z.shiftr c 80) 0xFF;
    Z.land (Z.shiftr c 72) 0xFF; Z.land (Z.shiftr c 64) 0xFF;
    Z.land (Z.shiftr c 56) 0xFF; Z.land (Z.shiftr c 48) 0xFF;
    Z.land (Z.shiftr c 40) 0xFF; Z.land (Z.shiftr c 32) 0xFF;
    Z.land (Z.shiftr c 24) 0xFF; Z.land (Z.shiftr c 16) 0xFF;
    Z.land (Z.shiftr c 8) 0xFF; Z.land c 0xFF ].

(** One pass of the loop of [_generate_round_keys] (lines 95-101): the
    register [K] and the list of round keys produced so far. *)
Definition key_schedule_step (self : SM4_obj) (i : Z) (st : words * list Z)
  : result (words * list Z) :=
  let '((k0, k1, k2, k3), rks) := st in
  ck <- getitem SM4.CK i;;
  t <- call_t_function self (Z.lxor (Z.lxor (Z.lxor k1 k2) k3) ck);;
  let rk := Z.lxor k0 t in
  ret ((k1, k2, k3, rk), rks ++ [rk]).

Definition _generate_round_keys (self : SM4_obj) : result (list Z) :=
  K <- load_words (key self);;
  let '(k0, k1, k2, k3) := K in
  fk0 <- getitem SM4.FK 0;;
  fk1 <- getitem SM4.FK 1;;
  fk2 <- getitem SM4.FK 2;;
  fk3 <- getitem SM4.FK 3;;
  let K := (Z.lxor k0 fk0, Z.lxor k1 fk1, Z.lxor k2 fk2, Z.lxor k3 fk3) in
  st <- for_each (range 32) (key_schedule_step self) (K, []);;
  ret (snd st).

(** One pass of the 32-round loop (line 118 for encryption with [idx = i],
    lines 148-149 for decryption with [idx = 31 - i]). *)
Definition round_step (self : SM4_obj) (idx : Z) (X : words) : result words :=
  let '(x0, x1, x2, x3) := X in
  rks <- getattr "round_keys" (round_keys self);;
  rk <- getitem rks idx;;
  t <- call_t_function self (Z.lxor (Z.lxor (Z.lxor x1 x2) x3) rk);;
  ret (x1, x2, x3, Z.lxor x0 t).

Definition encrypt_block (self : SM4_obj) (plaintext : bytes) : result bytes :=
  if negb (length plaintext =? 16)%nat then raise (ValueError BlockLengthEnc)
  else
    X <- load_words plaintext;;
    X <- for_each (range 32) (fun i => round_step self i) X;;
    ret (store_words X).

Definition decrypt_block (self : SM4_obj) (ciphertext : bytes) : result bytes :=
  if negb (length ciphertext =? 16)%nat then raise (ValueError BlockLengthDec)
  else
    X <- load_words ciphertext;;
    X <- for_each (range 32) (fun i => round_step self (31 - i)) X;;
    ret (store_words X).

(** [SM4.__init__] run on a fresh instance of class [c]: the length check,
    the attribute assignments, then [self.round_keys =
    self._generate_round_keys()], at a point where [T_table] does not exist. *)
Definition SM4__init__ (c : sm4_class) (k : bytes) : result SM4_obj :=
  if negb (length k =? 16)%nat then raise (ValueError KeyLength)
  else
    let self := mk_SM4 c k None None in
    rks <- _generate_round_keys self;;
    ret (mk_SM4 c k (Some rks) (T_table self)).

(** [val ^= rotl(val, 2) ^ rotl(val, 10) ^ rotl(val, 18) ^ rotl(val, 24)] *)
Definition spread (v : Z) : Z :=
  Z.lxor v
    (Z.lxor (Z.lxor (Z.lxor (SM4._rotate_left v 2) (SM4._rotate_left v 10))
                    (SM4._rotate_left v 18))
            (SM4._rotate_left v 24)).

(** [tbl[r][i] = v] *)
Definition setitem2 (tbl : list (list Z)) (r : Z) (i : Z) (v : Z)
  : result (list (list Z)) :=
  row <- getitem tbl r;;
  _ <- getitem row i;;
  ret (setitem tbl (Z.to_nat r) (setitem row (Z.to_nat i) v)).

(** One pass of the loop of [_precompute_tables] (lines 22-53). *)
Definition precompute_step (i : Z) (tbl : list (list Z)) : result (list (list Z)) :=
  s <- SM4._sbox i;;
  tbl <- setitem2 tbl 0 i (spread (Z.shiftl s 24));;
  tbl <- setitem2 tbl 1 i (spread (Z.shiftl s 16));;
  tbl <- setitem2 tbl 2 i (spread (Z.shiftl s 8));;
  setitem2 tbl 3 i (spread s).

Definition _precompute_tables (self : SM4_obj) : result SM4_obj :=
  let tbl := repeat (repeat 0 256%nat) 4%nat in
  tbl <- for_each (range 256) precompute_step tbl;;
  ret (mk_SM4 (cls self) (key self) (round_keys self) (Some tbl)).

(** [SM4Optimized.__init__]: [super().__init__(key)], then the tables. *)
Definition SM4Optimized__init__ (k : bytes) : result SM4_obj :=
  self <- SM4__init__ Optimized k;;
  _precompute_tables self.

(** [SM4(key)] and [SM4Optimized(key)] *)
Definition new_SM4 (k : bytes) : result SM4_obj := SM4__init__ Basic k.
Definition new_SM4Optimized (k : bytes) : result SM4_obj := SM4Optimized__init__ k.

(** ** sm4_gcm.py: the GCM session *)

(** What a call of [encrypt] or [decrypt] does besides returning: the calls
    of the block cipher, the tag comparison, and every chunk appended to the
    output of the CTR loop, in the order in which they happen. *)
Inductive event :=
| EncryptBlock (block : bytes)      (* self.sm4.encrypt_block(block) *)
| Compare (a b : bytes)             (* self._constant_time_compare(a, b) *)
| Output (chunk : bytes).           (* plaintext += chunk / ciphertext += chunk *)

(** A computation that logs events and may raise. *)
Definition M (A : Type) : Type := (list event * result A)%type.

Definition mret {A} (a : A) : M A := ([], inr a).
Definition mraise {A} (e : exn) : M A := ([], inl e).
Definition lift {A} (r : result A) : M A := ([], r).
Definition emit (e : event) : M unit := ([e], inr tt).
Definition mbind {A B} (m : M A) (f : A -> M B) : M B :=
  match m with
  | (t, inl e) => (t, inl e)
  | (t, inr a) => let (t', r) := f a in (t ++ t', r)
  end.

Notation "x <-- m ;; k" := (mbind m (fun x => k))
  (at level 61, m at next level, right associativity) : py_scope.

Fixpoint for_eachM {I S} (items : list I) (body : I -> S -> M S) (s : S) : M S :=
  match items with
  | [] => mret s
  | i :: rest => s' <-- body i s;; for_eachM rest body s'
  end.

(** The attributes of a session.  [sm4], [tag_length] and [nonce] are
    assigned at the top of [SM4GCM.__init__], before any method is called;
    [initial_counter] and [H] are assigned later, in this order. *)
Record SM4GCM_obj := mk_GCM {
  sm4 : SM4_obj;
  tag_length : Z;
  nonce : bytes;
  initial_counter : option bytes;
  H : option bytes
}.

Module SM4GCM.

Definition _increment_counter (counter : bytes) : result bytes :=
  let counter_int := int_from_bytes (slice counter 12 16) in
  let counter_int := counter_int + 1 in
  tail <- int_to_bytes counter_int 4;;
  ret (slice counter 0 12 ++ tail).

(** One pass of the loop of [_galois_multiply] (lines 86-93). *)
Definition galois_step (x h : Z) (y : Z) (i : Z) : Z :=
  let p := Z.lor 0x87 (Z.shiftl 1 128) in
  let y := Z.shiftl y 1 in
  let y := if negb (Z.land (Z.shiftr x i) 1 =? 0) then Z.lxor y h else y in
  if negb (Z.shiftr y 128 =? 0) then Z.lxor y p else y.

(** [for i in range(127, -1, -1)] *)
Definition _galois_multiply (x h : Z) : Z :=
  fold_left (galois_step x h) (rev (range 128)) 0.

(** [data[i:i+16]], zero-padded to 16 bytes, as a big-endian integer. *)
Definition padded_block (data : bytes) (i : nat) : Z :=
  let block := slice data i (i + 16) in
  let block :=
    if (length block <? 16)%nat
    then block ++ repeat 0 (16 - length block)
    else block in
  int_from_bytes block.

Definition _ghash (auth_data ciphertext Hkey : bytes) : result bytes :=
  let blocks := map (padded_block auth_data) (range16 (length auth_data)) in
  let blocks := blocks ++ map (padded_block ciphertext) (range16 (length ciphertext)) in
  let len_auth := Z.of_nat (length auth_data) * 8 in
  let len_cipher := Z.of_nat (length ciphertext) * 8 in
  let len_block := Z.lor (Z.shiftl len_auth 64) len_cipher in
  let blocks := blocks ++ [len_block] in
  let h := int_from_bytes Hkey in
  let y := fold_left (fun y block => _galois_multiply (Z.lxor y block) h) blocks 0 in
  int_to_bytes y 16.

Definition _generate_initial_counter (self : SM4GCM_obj) : result bytes :=
  if (length (nonce self) =? 12)%nat
  then ret (nonce self ++ [0; 0; 0; 1])
  else
    h <- getattr "H" (H self);;
    _ghash (nonce self) [] h.

(** [SM4GCM.__init__].  [urandom12] stands for the 12 bytes [os.urandom]
    returns when no nonce is given. *)
Definition __init__ (urandom12 : bytes) (k : bytes) (nonce_arg : option bytes)
  (tag_len : Z) : result SM4GCM_obj :=
  cipher <- new_SM4Optimized k;;
  let n := match nonce_arg with None => urandom12 | Some n => n end in
  let self := mk_GCM cipher tag_len n None None in
  ic <- _generate_initial_counter self;;
  let self := mk_GCM cipher tag_len n (Some ic) None in
  h <- encrypt_block (sm4 self) (repeat 0 16%nat);;
  ret (mk_GCM cipher tag_len n (Some ic) (Some h)).

Definition _constant_time_compare (a b : bytes) : bool :=
  if negb (length a =? length b)%nat then false
  else
    let result := fold_left (fun r p => Z.lor r (Z.lxor (fst p) (snd p))) (combine a b) 0 in
    result =? 0.

(** [self.sm4.encrypt_block(block)], logged. *)
Definition cipher_call (self : SM4GCM_obj) (block : bytes) : M bytes :=
  _ <-- emit (EncryptBlock block);;
  lift (encrypt_block (sm4 self) block).

(** One pass of the CTR loop, the same in [encrypt] (lines 111-122) and in
    [decrypt] (lines 171-182): the output so far and the working counter. *)
Definition ctr_step (self : SM4GCM_obj) (data : bytes) (i : nat)
  (st : bytes * bytes) : M (bytes * bytes) :=
  let '(out, counter) := st in
  let block := slice data i (i + 16) in
  keystream <-- cipher_call self counter;;
  let chunk := xor_bytes block keystream in
  _ <-- emit (Output chunk);;
  counter <-- lift (_increment_counter counter);;
  mret (out ++ chunk, counter).

Definition ctr_loop (self : SM4GCM_obj) (data : bytes) : M bytes :=
  counter <-- lift (getattr "initial_counter" (initial_counter self));;
  st <-- for_eachM (range16 (length data)) (ctr_step self data) ([], counter);;
  mret (fst st).

Definition encrypt (self : SM4GCM_obj) (plaintext auth_data : bytes)
  : M (bytes * bytes) :=
  ciphertext <-- ctr_loop self plaintext;;
  h <-- lift (getattr "H" (H self));;
  tag <-- lift (_ghash auth_data ciphertext h);;
  ic <-- lift (getattr "initial_counter" (initial_counter self));;
  tag_encrypted <-- cipher_call self ic;;
  let tag := xor_bytes tag tag_encrypted in
  mret (ciphertext, slice_to tag (tag_length self)).

Definition decrypt (self : SM4GCM_obj) (ciphertext tag auth_data : bytes)
  : M bytes :=
  if negb (Z.of_nat (length tag) =? tag_length self)
  then mraise (ValueError TagLength)
  else
    ic <-- lift (getattr "initial_counter" (initial_counter self));;
    tag_encrypted <-- cipher_call self ic;;
    let tag_decrypted := xor_bytes tag tag_encrypted in
    let tag_decrypted :=
      if (length tag_decrypted <? 16)%nat
      then tag_decrypted ++ repeat 0 (16 - length tag_decrypted)
      else tag_decrypted in
    h <-- lift (getattr "H" (H self));;
    computed_tag <-- lift (_ghash auth_data ciphertext h);;
    _ <-- emit (Compare tag_decrypted computed_tag);;
    if negb (_constant_time_compare tag_decrypted computed_tag)
    then mraise (ValueError AuthFailed)
    else ctr_loop self ciphertext.

End SM4GCM.

(** * Pure counterparts used by the proofs *)

(** [Sbox[b]] for [b] in [0, 256). *)
Definition sbox_at (b : Z) : Z := nth (Z.to_nat b) SM4.Sbox 0.

(** The table [_precompute_tables] is meant to build, row by row. *)
Definition table_row (shift : Z) : list Z :=
  map (fun b => spread (Z.shiftl (sbox_at b) shift)) (range 256).

(** [T_table] after [_precompute_tables]: one row per byte position. *)
Definition expected_tables : list (list Z) :=
  [table_row 24; table_row 16; table_row 8; table_row 0].

(** The value of the plain T function: it never raises. *)
Definition t_value (x : Z) : Z :=
  let s0 := sbox_at (Z.land (Z.shiftr x 24) 0xFF) in
  let s1 := sbox_at (Z.land (Z.shiftr x 16) 0xFF) in
  let s2 := sbox_at (Z.land (Z.shiftr x 8) 0xFF) in
  let s3 := sbox_at (Z.land x 0xFF) in
  SM4.linear (Z.lor (Z.lor (Z.lor (Z.shiftl s0 24) (Z.shiftl s1 16)) (Z.shiftl s2 8)) s3).

(** Four bytes as one big-endian word, as [load_word] packs them. *)
Definition pack4 (b0 b1 b2 b3 : Z) : Z :=
  Z.lor (Z.lor (Z.lor (Z.shiftl b0 24) (Z.shiftl b1 16)) (Z.shiftl b2 8)) b3.

(** The reverse transform on the four words. *)
Definition rev_words (X : words) : words :=
  let '(x0, x1, x2, x3) := X in (x3, x2, x1, x0).

(** An unsigned 32-bit word. *)
Definition word32 (x : Z) : Prop := 0 <= x < 2 ^ 32.

Definition words32 (X : words) : Prop :=
  let '(x0, x1, x2, x3) := X in word32 x0 /\ word32 x1 /\ word32 x2 /\ word32 x3.

(** What [round_step] returns on a plain instance, for the round key [rk]. *)
Definition round_value (rk : Z) (X : words) : words :=
  let '(x0, x1, x2, x3) := X in
  (x1, x2, x3, Z.lxor x0 (t_value (Z.lxor (Z.lxor (Z.lxor x1 x2) x3) rk))).

(** The rounds run with the round keys [ks], in order. *)
Definition rounds (ks : list Z) (X : words) : words :=
  fold_left (fun X k => round_value k X) ks X.

(** What [key_schedule_step] returns on a plain instance. *)
Definition key_schedule_value (i : Z) (st : words * list Z) : words * list Z :=
  let '((k0, k1, k2, k3), rks) := st in
  let rk := Z.lxor k0 (t_value (Z.lxor (Z.lxor (Z.lxor k1 k2) k3) (nth (Z.to_nat i) SM4.CK 0))) in
  ((k1, k2, k3, rk), rks ++ [rk]).

(** The exception [decrypt] raises on a tag mismatch. *)
Definition is_auth_failure (e : exn) : bool :=
  match e with
  | ValueError AuthFailed => true
  | _ => false
  end.

(** The events that release bytes of the CTR loop's output. *)
Definition is_output (e : event) : bool :=
  match e with
  | Output _ => true
  | _ => false
  end.

(** * Sample inputs *)

(** The two test vectors of [src/src/test.py]; the expected ciphertext of
    the second one ends in [0x62] in the specification and in [0x63] in the
    test file. *)
Definition key_1 : bytes :=
  [0x01; 0x23; 0x45; 0x67; 0x89; 0xab; 0xcd; 0xef; 0xfe; 0xdc; 0xba; 0x98; 0x76; 0x54; 0x32; 0x10].
Definition plain_1 : bytes := key_1.
Definition cipher_1 : bytes :=
  [0x68; 0x1e; 0xdf; 0x34; 0xd2; 0x06; 0x96; 0x5e; 0x86; 0xb3; 0xe9; 0x4f; 0x53; 0x6e; 0x42; 0x46].

Definition key_2 : bytes :=
  [0x00; 0x01; 0x02; 0x03; 0x04; 0x05; 0x06; 0x07; 0x08; 0x09; 0x0a; 0x0b; 0x0c; 0x0d; 0x0e; 0x0f].
Definition plain_2 : bytes :=
  [0x00; 0x11; 0x22; 0x33; 0x44; 0x55; 0x66; 0x77; 0x88; 0x99; 0xaa; 0xbb; 0xcc; 0xdd; 0xee; 0xff].
Definition cipher_2 : bytes :=
  [0x59; 0x52; 0x98; 0xc7; 0xc6; 0xfd; 0x27; 0x1f; 0x0a; 0x8c; 0x98; 0x81; 0x49; 0xb7; 0xef; 0x62].
Definition cipher_2_test_py : bytes :=
  [0x59; 0x52; 0x98; 0xc7; 0xc6; 0xfd; 0x27; 0x1f; 0x0a; 0x8c; 0x98; 0x81; 0x49; 0xb7; 0xef; 0x63].

(** What [encrypt_block] returns on them. *)
Definition returned_1 : bytes :=
  [0x3b; 0xf9; 0xe2; 0xbf; 0x4b; 0x0c; 0x2e; 0x87; 0xbd; 0xc2; 0x3a; 0xd0; 0x0c; 0x92; 0xce; 0x95].

Definition returned_2 : bytes :=
  [0xac; 0x20; 0x18; 0x19; 0x38; 0xa7; 0xe0; 0xb5; 0x45; 0x19; 0xb1; 0x98; 0xcb; 0x1f; 0x05; 0x38].

Definition zero_nonce : bytes := repeat 0 12%nat.
Definition short_nonce : bytes := repeat 0 8%nat.

(** A counter whose low 32 bits are all ones. *)
Definition full_counter : bytes := repeat 0 12%nat ++ [0xFF; 0xFF; 0xFF; 0xFF].

(** An [SM4Optimized] instance in which both [T_table] and [round_keys] are
    present, obtained by running [_precompute_tables] before the key
    schedule.  No constructor of the source returns one; it is a sample state
    on which the methods can be run. *)
Definition sample_cipher : SM4_obj :=
  match (self <- _precompute_tables (mk_SM4 Optimized key_1 None None);;
         rks <- _generate_round_keys self;;
         ret (mk_SM4 Optimized key_1 (Some rks) (T_table self))) with
  | inr self => self
  | inl _ => mk_SM4 Optimized key_1 None None
  end.

(** A session state with every attribute present, as [SM4GCM.__init__]
    would leave it for a 12-byte nonce and the default tag length. *)
Definition sample_session : SM4GCM_obj :=
  mk_GCM sample_cipher 16 zero_nonce
    (Some (zero_nonce ++ [0; 0; 0; 1]))
    (match encrypt_block sample_cipher (repeat 0 16%nat) with
     | inr h => Some h
     | inl _ => None
     end).

Definition sample_plaintext : bytes :=
  [0x53; 0x4d; 0x34; 0x2d; 0x47; 0x43; 0x4d; 0x20; 0x73; 0x61; 0x6d; 0x70; 0x6c; 0x65;
   0x20; 0x6d; 0x65; 0x73; 0x73; 0x61; 0x67; 0x65].
Definition sample_auth_data : bytes := [0x68; 0x65; 0x61; 0x64; 0x65; 0x72].

(** What [encrypt] returns on the sample session. *)
Definition sample_ciphertext : bytes :=
  [162; 102; 114; 143; 115; 183; 13; 3; 237; 206; 109; 167; 64; 68; 178; 131;
   14; 40; 60; 236; 227; 246].
Definition sample_tag : bytes :=
  [213; 163; 11; 169; 92; 243; 255; 207; 218; 93; 135; 2; 222; 202; 75; 154].

(** The round keys of [sample_cipher]. *)
Definition sample_round_keys : list Z :=
  match round_keys sample_cipher with
  | Some rks => rks
  | None => []
  end.

(** The keystream the CTR loop consumes in [m] passes from the counter [c],
    with the counter it ends on; it raises what the loop raises. *)
Fixpoint keystream (self : SM4GCM_obj) (c : bytes) (m : nat) : result (bytes * bytes) :=
  match m with
  | O => inr ([], c)
  | S m' =>
      ks <- encrypt_block (sm4 self) c;;
      c' <- SM4GCM._increment_counter c;;
      rest <- keystream self c' m';;
      ret (ks ++ fst rest, snd rest)
  end.

(** A cipher instance on which the block operations work: 32 round keys,
    and, for the accelerated class, the tables [_precompute_tables] builds. *)
Definition usable_cipher (c : SM4_obj) : Prop :=
  (exists rks, round_keys c = Some rks /\ length rks = 32%nat) /\
  (cls c = Basic \/ T_table c = Some expected_tables).

(** The number of passes of the CTR loop over [n] bytes. *)
Definition blocks (n : nat) : nat := ((n + 15) / 16)%nat.

(** A session state in which every attribute is present and well formed, and
    whose counter does not overflow within [n] bytes of data. *)
Definition usable_session (s : SM4GCM_obj) (n : nat) : Prop :=
  usable_cipher (sm4 s) /\
  (exists ic, initial_counter s = Some ic /\ length ic = 16%nat /\ is_bytes ic = true /\
              int_from_bytes (slice ic 12 16) + Z.of_nat (blocks n) <= 0xFFFFFFFF) /\
  (exists h, H s = Some h /\ length h = 16%nat /\ is_bytes h = true).

(** The zero padding of the unmasked tag in [decrypt] (lines 156-158). *)
Definition padded_tag (t : bytes) : bytes :=
  if (length t <? 16)%nat then t ++ repeat 0 (16 - length t) else t.

(** What [encrypt] returns, when it returns. *)
Definition encrypted (self : SM4GCM_obj) (plaintext auth_data : bytes) : bytes * bytes :=
  match snd (SM4GCM.encrypt self plaintext auth_data) with
  | inr p => p
  | inl _ => ([], [])
  end.

(** [sample_session] with another tag length. *)
Definition sample_session_with (t : Z) : SM4GCM_obj :=
  mk_GCM (sm4 sample_session) t (nonce sample_session)
    (initial_counter sample_session) (H sample_session).

(** The hash subkey and the initial counter of [sample_session]. *)
Definition sample_H : bytes :=
  match H sample_session with Some h => h | None => [] end.
Definition sample_initial_counter : bytes :=
  match initial_counter sample_session with Some c => c | None => [] end.

(** Is every byte zero? *)
Definition all_zero (b : bytes) : bool := forallb (fun x => x =? 0) b.

(** The blocks an event log shows the cipher was called on, in order. *)
Fixpoint cipher_inputs (log : list event) : list bytes :=
  match log with
  | [] => []
  | EncryptBlock b :: rest => b :: cipher_inputs rest
  | _ :: rest => cipher_inputs rest
  end.

(** The successive values of the working counter over [m] passes of the
    CTR loop, as [_increment_counter] produces them. *)
Fixpoint counters (c : bytes) (m : nat) : list bytes :=
  match m with
  | O => []
  | S m' =>
      c :: match SM4GCM._increment_counter c with
           | inr c' => counters c' m'
           | inl _ => []
           end
  end.

(** The GHASH value of the sample message. *)
Definition sample_ghash : bytes :=
  [36; 136; 77; 11; 104; 7; 191; 236; 68; 242; 135; 213; 242; 235; 217; 116].

(** * Bit-level facts *)

Lemma testbit_high (x n i : Z) :
  0 <= x < 2 ^ n -> n <= i -> Z.testbit x i = false.
Proof.
  intros Hx Hi.
  destruct (Z.eq_dec x 0) as [->|Hne]; [apply Z.testbit_0_l|].
  apply Z.bits_above_log2; [lia|].
  assert (0 <= n) by (destruct (Z.le_gt_cases 0 n); [assumption|rewrite Z.pow_neg_r in Hx; lia]).
  assert (Z.log2 x < n) by (apply Z.log2_lt_pow2; lia).
  lia.
Qed.

Lemma testbit_mask8 (a i : Z) :
  0 <= i -> Z.testbit (Z.land a 0xFF) i = Z.testbit a i && (i <? 8).
Proof.
  intros Hi. rewrite Z.land_spec. f_equal.
  change 0xFF with (Z.ones 8). apply Z.testbit_ones_nonneg; lia.
Qed.

Lemma testbit_mask32 (a i : Z) :
  0 <= i -> Z.testbit (Z.land a 0xFFFFFFFF) i = Z.testbit a i && (i <? 32).
Proof.
  intros Hi. rewrite Z.land_spec. f_equal.
  change 0xFFFFFFFF with (Z.ones 32). apply Z.testbit_ones_nonneg; lia.
Qed.

Lemma range_of_bits (x n : Z) :
  0 <= n -> 0 <= x -> (forall i, n <= i -> Z.testbit x i = false) -> 0 <= x < 2 ^ n.
Proof.
  intros Hn Hx Hb. split; [assumption|].
  destruct (Z.eq_dec x 0) as [->|Hne]; [apply Z.pow_pos_nonneg; lia|].
  apply Z.log2_lt_pow2; [lia|].
  destruct (Z.lt_ge_cases (Z.log2 x) n) as [|Hge]; [assumption|].
  specialize (Hb (Z.log2 x) Hge).
  rewrite Z.bit_log2 in Hb by lia. discriminate.
Qed.

Lemma mask8_range (a : Z) : 0 <= Z.land a 0xFF < 256.
Proof.
  change 0xFF with (Z.ones 8). rewrite Z.land_ones by lia.
  apply Z.mod_pos_bound. reflexivity.
Qed.

Lemma mask32_range (a : Z) : 0 <= Z.land a 0xFFFFFFFF < 2 ^ 32.
Proof.
  change 0xFFFFFFFF with (Z.ones 32). rewrite Z.land_ones by lia.
  apply Z.mod_pos_bound. reflexivity.
Qed.

Lemma lor_range (a b n : Z) :
  0 <= n -> 0 <= a < 2 ^ n -> 0 <= b < 2 ^ n -> 0 <= Z.lor a b < 2 ^ n.
Proof.
  intros Hn Ha Hb. apply range_of_bits; [assumption|apply Z.lor_nonneg; lia|].
  intros i Hi. rewrite Z.lor_spec, (testbit_high a n i), (testbit_high b n i) by lia.
  reflexivity.
Qed.

Lemma lxor_range (a b n : Z) :
  0 <= n -> 0 <= a < 2 ^ n -> 0 <= b < 2 ^ n -> 0 <= Z.lxor a b < 2 ^ n.
Proof.
  intros Hn Ha Hb. apply range_of_bits; [assumption|apply Z.lxor_nonneg; lia|].
  intros i Hi. rewrite Z.lxor_spec, (testbit_high a n i), (testbit_high b n i) by lia.
  reflexivity.
Qed.

Lemma rotate_left_range (x n : Z) : 0 <= SM4._rotate_left x n < 2 ^ 32.
Proof.
  unfold SM4._rotate_left. apply lor_range; [lia| |]; apply mask32_range.
Qed.

Lemma linear_range (x : Z) : 0 <= x < 2 ^ 32 -> 0 <= SM4.linear x < 2 ^ 32.
Proof.
  intros Hx. unfold SM4.linear.
  repeat (apply lxor_range; [lia| |]); auto using rotate_left_range.
Qed.

Lemma rotate_left_bits (x n i : Z) :
  0 <= x < 2 ^ 32 -> 0 <= n <= 32 -> 0 <= i ->
  Z.testbit (SM4._rotate_left x n) i =
  (i <? 32) && (if i <? n then Z.testbit x (i + 32 - n) else Z.testbit x (i - n)).
Proof.
  intros Hx Hn Hi. unfold SM4._rotate_left.
  rewrite Z.lor_spec, !testbit_mask32, Z.shiftl_spec, Z.shiftr_spec by lia.
  replace (i + (32 - n)) with (i + 32 - n) by lia.
  destruct (Z.ltb_spec i 32) as [H32|H32]; destruct (Z.ltb_spec i n) as [Hlt|Hge];
    rewrite ?andb_false_r, ?andb_true_r; cbn [andb orb]; try reflexivity.
  - rewrite (Z.testbit_neg_r x (i - n)) by lia. reflexivity.
  - rewrite (testbit_high x 32 (i + 32 - n)) by lia. apply orb_false_r.
Qed.

Lemma rotate_left_lxor (a b n : Z) :
  0 <= a < 2 ^ 32 -> 0 <= b < 2 ^ 32 -> 0 <= n <= 32 ->
  SM4._rotate_left (Z.lxor a b) n =
  Z.lxor (SM4._rotate_left a n) (SM4._rotate_left b n).
Proof.
  intros Ha Hb Hn. apply Z.bits_inj'. intros i Hi.
  assert (Hab : 0 <= Z.lxor a b < 2 ^ 32) by (apply lxor_range; lia).
  rewrite Z.lxor_spec, !rotate_left_bits by lia.
  destruct (i <? 32), (i <? n); cbn [andb]; rewrite ?Z.lxor_spec; reflexivity.
Qed.

(** The linear transform distributes over XOR on 32-bit words. *)
Lemma linear_lxor (a b : Z) :
  0 <= a < 2 ^ 32 -> 0 <= b < 2 ^ 32 ->
  SM4.linear (Z.lxor a b) = Z.lxor (SM4.linear a) (SM4.linear b).
Proof.
  intros Ha Hb. unfold SM4.linear.
  rewrite !rotate_left_lxor by lia.
  apply Z.bits_inj'. intros i Hi. rewrite !Z.lxor_spec. btauto.
Qed.

Lemma spread_linear (v : Z) : spread v = SM4.linear v.
Proof.
  unfold spread, SM4.linear.
  apply Z.bits_inj'. intros i Hi. rewrite !Z.lxor_spec. btauto.
Qed.

Lemma shiftl_byte_range (s k : Z) :
  0 <= s < 256 -> 0 <= k <= 24 -> 0 <= Z.shiftl s k < 2 ^ 32.
Proof.
  intros Hs Hk. rewrite Z.shiftl_mul_pow2 by lia.
  assert (0 < 2 ^ k) by (apply Z.pow_pos_nonneg; lia).
  assert (2 ^ k <= 2 ^ 24) by (apply Z.pow_le_mono_r; lia).
  change (2 ^ 32) with (256 * 2 ^ 24). nia.
Qed.

(** The four substituted bytes occupy disjoint bit positions, so packing
    them with [|] is the same as packing them with [^]. *)
Lemma pack_lor_lxor (s0 s1 s2 s3 : Z) :
  0 <= s0 < 256 -> 0 <= s1 < 256 -> 0 <= s2 < 256 -> 0 <= s3 < 256 ->
  Z.lor (Z.lor (Z.lor (Z.shiftl s0 24) (Z.shiftl s1 16)) (Z.shiftl s2 8)) s3 =
  Z.lxor (Z.lxor (Z.lxor (Z.shiftl s0 24) (Z.shiftl s1 16)) (Z.shiftl s2 8)) s3.
Proof.
  intros H0 H1 H2 H3. apply Z.bits_inj'. intros i Hi.
  rewrite !Z.lor_spec, !Z.lxor_spec, !Z.shiftl_spec by lia.
  assert (Hcases : i < 8 \/ 8 <= i < 16 \/ 16 <= i < 24 \/ 24 <= i) by lia.
  destruct Hcases as [Hc|[Hc|[Hc|Hc]]].
  - rewrite (Z.testbit_neg_r s0), (Z.testbit_neg_r s1), (Z.testbit_neg_r s2) by lia.
    reflexivity.
  - rewrite (Z.testbit_neg_r s0), (Z.testbit_neg_r s1), (testbit_high s3 8 i) by lia.
    destruct (Z.testbit s2 (i - 8)); reflexivity.
  - rewrite (Z.testbit_neg_r s0), (testbit_high s2 8), (testbit_high s3 8 i) by lia.
    destruct (Z.testbit s1 (i - 16)); reflexivity.
  - rewrite (testbit_high s1 8), (testbit_high s2 8), (testbit_high s3 8 i) by lia.
    destruct (Z.testbit s0 (i - 24)); reflexivity.
Qed.

(** * Look-ups that cannot fail *)

Lemma getitem_nth {A} (d : A) (l : list A) (i : Z) :
  0 <= i < Z.of_nat (length l) -> getitem l i = inr (nth (Z.to_nat i) l d).
Proof.
  intros Hi. unfold getitem.
  destruct (Z.ltb_spec i 0) as [Hneg|_]; [lia|].
  destruct (Z.leb_spec 0 i) as [_|Hneg]; [|lia].
  destruct (Z.ltb_spec i (Z.of_nat (length l))) as [_|Hbig]; [|lia].
  cbn [andb].
  destruct (nth_error l (Z.to_nat i)) as [v|] eqn:Hnth.
  - f_equal. symmetry. apply nth_error_nth. assumption.
  - apply nth_error_None in Hnth. lia.
Qed.

Lemma getitem_map_range {A} (f : Z -> A) (n : nat) (i : Z) :
  0 <= i < Z.of_nat n -> getitem (map f (range n)) i = inr (f i).
Proof.
  intros Hi. unfold range.
  rewrite (getitem_nth (f 0)) by (rewrite !length_map, length_seq; lia).
  f_equal.
  rewrite (nth_indep _ (f 0) (f (Z.of_nat 0))) by (rewrite !length_map, length_seq; lia).
  rewrite map_map, (map_nth (fun k => f (Z.of_nat k))), seq_nth by lia.
  f_equal. lia.
Qed.

Lemma sbox_ok (b : Z) : 0 <= b < 256 -> SM4._sbox b = inr (sbox_at b).
Proof.
  intros Hb. unfold SM4._sbox, sbox_at. apply getitem_nth.
  change (Z.of_nat (length SM4.Sbox)) with 256. assumption.
Qed.

Lemma sbox_at_range (b : Z) : 0 <= sbox_at b < 256.
Proof.
  unfold sbox_at.
  assert (Hall : Forall (fun v => 0 <= v < 256) SM4.Sbox).
  { apply Forall_forall. intros v Hv.
    assert (Hb : forallb (fun v => (0 <=? v) && (v <? 256)) SM4.Sbox = true)
      by (vm_compute; reflexivity).
    rewrite forallb_forall in Hb. specialize (Hb v Hv). lia. }
  destruct (Nat.lt_ge_cases (Z.to_nat b) (length SM4.Sbox)) as [Hlt|Hge].
  - rewrite Forall_forall in Hall. apply Hall. apply nth_In. assumption.
  - rewrite nth_overflow by assumption. lia.
Qed.

Lemma t_function_total (x : Z) : SM4._t_function x = inr (t_value x).
Proof.
  unfold SM4._t_function, t_value.
  rewrite !sbox_ok by apply mask8_range. reflexivity.
Qed.

Lemma t_value_range (x : Z) : 0 <= t_value x < 2 ^ 32.
Proof.
  unfold t_value. apply linear_range.
  repeat (apply lor_range; [lia| |]);
    try (apply shiftl_byte_range; [apply sbox_at_range|lia]).
  pose proof (sbox_at_range (Z.land x 0xFF)). lia.
Qed.

Lemma precompute_loop :
  for_each (range 256) precompute_step (repeat (repeat 0 256%nat) 4%nat)
  = inr expected_tables.
Proof. vm_compute. reflexivity. Qed.

Lemma precompute_tables_ok (self : SM4_obj) :
  _precompute_tables self =
  inr (mk_SM4 (cls self) (key self) (round_keys self) (Some expected_tables)).
Proof.
  unfold _precompute_tables. rewrite precompute_loop. reflexivity.
Qed.

(** With the tables in place the T-table [_t_function] returns what the
    plain one returns, on every integer. *)
Lemma t_function_with_tables (self : SM4_obj) (x : Z) :
  T_table self = Some expected_tables ->
  SM4Optimized._t_function self x = SM4._t_function x.
Proof.
  intros Htbl. rewrite t_function_total.
  unfold SM4Optimized._t_function. rewrite Htbl. cbn [getattr bind].
  change (getitem expected_tables 0) with (@inr exn _ (table_row 24)).
  change (getitem expected_tables 1) with (@inr exn _ (table_row 16)).
  change (getitem expected_tables 2) with (@inr exn _ (table_row 8)).
  change (getitem expected_tables 3) with (@inr exn _ (table_row 0)).
  cbn [bind]. unfold table_row.
  rewrite !getitem_map_range by (change (Z.of_nat 256) with 256; apply mask8_range).
  cbn [bind ret]. f_equal. unfold t_value. cbv zeta.
  set (s0 := sbox_at _). set (s1 := sbox_at _). set (s2 := sbox_at _). set (s3 := sbox_at _).
  assert (H0 : 0 <= s0 < 256) by apply sbox_at_range.
  assert (H1 : 0 <= s1 < 256) by apply sbox_at_range.
  assert (H2 : 0 <= s2 < 256) by apply sbox_at_range.
  assert (H3 : 0 <= s3 < 256) by apply sbox_at_range.
  rewrite !spread_linear, Z.shiftl_0_r, pack_lor_lxor by assumption.
  assert (R0 : 0 <= Z.shiftl s0 24 < 2 ^ 32) by (apply shiftl_byte_range; lia).
  assert (R1 : 0 <= Z.shiftl s1 16 < 2 ^ 32) by (apply shiftl_byte_range; lia).
  assert (R2 : 0 <= Z.shiftl s2 8 < 2 ^ 32) by (apply shiftl_byte_range; lia).
  assert (R3 : 0 <= s3 < 2 ^ 32) by lia.
  rewrite !linear_lxor; auto using lxor_range.
  all: repeat (apply lxor_range; [lia| |]); assumption.
Qed.

(** * Packing words into bytes and back *)

Lemma shiftl_bits (a n m : Z) :
  Z.testbit (Z.shiftl a n) m = (0 <=? m) && Z.testbit a (m - n).
Proof.
  destruct (Z.leb_spec 0 m) as [Hm|Hm].
  - apply Z.shiftl_spec. assumption.
  - apply Z.testbit_neg_r. assumption.
Qed.

Lemma shiftr_bits (a n m : Z) :
  Z.testbit (Z.shiftr a n) m = (0 <=? m) && Z.testbit a (m + n).
Proof.
  destruct (Z.leb_spec 0 m) as [Hm|Hm].
  - apply Z.shiftr_spec. assumption.
  - apply Z.testbit_neg_r. assumption.
Qed.

Lemma mask8_bits (a m : Z) :
  Z.testbit (Z.land a 0xFF) m = Z.testbit a m && (m <? 8).
Proof.
  destruct (Z.le_gt_cases 0 m) as [Hm|Hm].
  - apply testbit_mask8. assumption.
  - rewrite !Z.testbit_neg_r by lia. reflexivity.
Qed.

(** Bit-by-bit equality of two expressions built from [|], [<<], [>>] and
    [& 0xFF] over variables with known ranges. *)
Ltac split_compares :=
  repeat match goal with
  | |- context [?a <? ?b] => destruct (Z.ltb_spec a b); try lia
  | |- context [?a <=? ?b] => destruct (Z.leb_spec a b); try lia
  end.

Ltac drop_dead_bits :=
  repeat match goal with
  | |- context [Z.testbit ?v ?j] =>
      first
        [ rewrite (Z.testbit_neg_r v j) by lia
        | match goal with
          | H : 0 <= v < 2 ^ ?n |- _ => rewrite (testbit_high v n j H) by lia
          | H : 0 <= v < 256 |- _ => rewrite (testbit_high v 8 j H) by lia
          end ]
  end.

Ltac bits_by_region :=
  repeat first [ rewrite Z.lor_spec | rewrite shiftl_bits
               | rewrite shiftr_bits | rewrite mask8_bits ];
  split_compares; cbn [andb orb];
  drop_dead_bits;
  rewrite ?andb_false_r, ?andb_true_r, ?orb_false_r, ?orb_false_l;
  cbn [andb orb];
  first [ reflexivity | f_equal; lia ].

Lemma pack4_range (b0 b1 b2 b3 : Z) :
  0 <= b0 < 256 -> 0 <= b1 < 256 -> 0 <= b2 < 256 -> 0 <= b3 < 256 ->
  word32 (pack4 b0 b1 b2 b3).
Proof.
  intros H0 H1 H2 H3. unfold pack4, word32.
  repeat (apply lor_range; [lia| |]); try (apply shiftl_byte_range; lia). lia.
Qed.

Lemma load_words_16 (b0 b1 b2 b3 b4 b5 b6 b7 b8 b9 b10 b11 b12 b13 b14 b15 : Z) :
  load_words [b0; b1; b2; b3; b4; b5; b6; b7; b8; b9; b10; b11; b12; b13; b14; b15]
  = inr (pack4 b0 b1 b2 b3, pack4 b4 b5 b6 b7, pack4 b8 b9 b10 b11, pack4 b12 b13 b14 b15).
Proof. reflexivity. Qed.

Lemma load_store (X : words) :
  words32 X -> load_words (store_words X) = inr (rev_words X).
Proof.
  destruct X as [[[x0 x1] x2] x3]. unfold words32, word32. intros (H0 & H1 & H2 & H3).
  unfold store_words. rewrite load_words_16. unfold rev_words, pack4.
  apply f_equal. apply f_equal2; [apply f_equal2; [apply f_equal2|]|].
  all: apply Z.bits_inj'; intros i Hi.
  all: assert (Hreg : i < 8 \/ 8 <= i < 16 \/ 16 <= i < 24 \/ 24 <= i < 32 \/ 32 <= i) by lia.
  all: destruct Hreg as [Hr|[Hr|[Hr|[Hr|Hr]]]].
  all: bits_by_region.
Qed.

Lemma store_load (b : bytes) (X : words) :
  length b = 16%nat -> is_bytes b = true -> load_words b = inr X ->
  store_words (rev_words X) = b.
Proof.
  intros Hlen Hb Hload.
  do 17 (destruct b as [|? b]; try discriminate Hlen).
  rewrite load_words_16 in Hload. injection Hload as <-.
  unfold is_bytes in Hb. cbn [forallb] in Hb.
  repeat (apply andb_prop in Hb; destruct Hb as [?%andb_prop Hb]).
  repeat match goal with
  | H : _ /\ _ |- _ => destruct H as [?%Z.leb_le ?%Z.ltb_lt]
  end.
  repeat match goal with
  | H : 0 <= ?v, H' : ?v < 256 |- _ =>
      assert (0 <= v < 256) by (split; assumption); clear H H'
  end.
  clear Hb.
  unfold rev_words, store_words, pack4.
  repeat (apply f_equal2; [|try reflexivity]).
  all: apply Z.bits_inj'; intros i Hi.
  all: assert (Hreg : i < 8 \/ 8 <= i) by lia.
  all: destruct Hreg as [Hr|Hr].
  all: bits_by_region.
Qed.

(** * The 32 rounds as a pure function *)

Lemma in_range (n : nat) (i : Z) : In i (range n) -> 0 <= i < Z.of_nat n.
Proof.
  unfold range. rewrite in_map_iff. intros (k & <- & Hk%in_seq). lia.
Qed.

Lemma for_each_pure {I S} (items : list I) (body : I -> S -> result S)
  (f : I -> S -> S) (s : S) :
  (forall i s, In i items -> body i s = inr (f i s)) ->
  for_each items body s = inr (fold_left (fun s i => f i s) items s).
Proof.
  revert s. induction items as [|i items IH]; intros s Hbody; cbn [for_each fold_left].
  - reflexivity.
  - rewrite Hbody by (left; reflexivity).
    apply IH. intros j s' Hj. apply Hbody. right. assumption.
Qed.

Lemma fold_left_keys {S K} (g : K -> S -> S) (h : Z -> K) (items : list Z) (s : S) :
  fold_left (fun s i => g (h i) s) items s = fold_left (fun s k => g k s) (map h items) s.
Proof.
  revert s. induction items as [|i items IH]; intros s; cbn [fold_left map].
  - reflexivity.
  - apply IH.
Qed.

Lemma keys_forward (rks : list Z) :
  length rks = 32%nat ->
  map (fun i => nth (Z.to_nat i) rks 0) (range 32) = rks.
Proof.
  intros Hlen. do 33 (destruct rks as [|? rks]; try discriminate Hlen). reflexivity.
Qed.

Lemma keys_backward (rks : list Z) :
  length rks = 32%nat ->
  map (fun i => nth (Z.to_nat (31 - i)) rks 0) (range 32) = rev rks.
Proof.
  intros Hlen. do 33 (destruct rks as [|? rks]; try discriminate Hlen). reflexivity.
Qed.

(** A plain instance that holds its 32 round keys. *)
Section PlainInstance.

Variable self : SM4_obj.
Variable rks : list Z.
Hypothesis Hcls : cls self = Basic.
Hypothesis Hrks : round_keys self = Some rks.
Hypothesis Hlen : length rks = 32%nat.

Lemma round_step_basic (idx : Z) (X : words) :
  0 <= idx < 32 ->
  round_step self idx X = inr (round_value (nth (Z.to_nat idx) rks 0) X).
Proof.
  intros Hidx. destruct X as [[[x0 x1] x2] x3].
  unfold round_step, call_t_function. rewrite Hrks, Hcls. cbn [getattr bind].
  rewrite (getitem_nth 0) by (rewrite Hlen; assumption). cbn [bind].
  rewrite t_function_total. reflexivity.
Qed.

Lemma encrypt_block_basic (b : bytes) (X : words) :
  length b = 16%nat -> load_words b = inr X ->
  encrypt_block self b = inr (store_words (rounds rks X)).
Proof.
  intros Hb Hload. unfold encrypt_block.
  rewrite Hb, Hload. cbn [Nat.eqb negb bind].
  rewrite (for_each_pure _ _ (fun i => round_value (nth (Z.to_nat i) rks 0))).
  - cbn [bind ret]. rewrite (fold_left_keys round_value), keys_forward by assumption.
    reflexivity.
  - intros i s Hi%in_range. apply round_step_basic. assumption.
Qed.

Lemma decrypt_block_basic (b : bytes) (X : words) :
  length b = 16%nat -> load_words b = inr X ->
  decrypt_block self b = inr (store_words (rounds (rev rks) X)).
Proof.
  intros Hb Hload. unfold decrypt_block.
  rewrite Hb, Hload. cbn [Nat.eqb negb bind].
  rewrite (for_each_pure _ _ (fun i => round_value (nth (Z.to_nat (31 - i)) rks 0))).
  - cbn [bind ret]. rewrite (fold_left_keys round_value (fun i => nth (Z.to_nat (31 - i)) rks 0)).
    rewrite keys_backward by assumption. reflexivity.
  - intros i s Hi%in_range. apply round_step_basic. lia.
Qed.

End PlainInstance.

(** ** The Feistel symmetry *)

Lemma rev_words_involutive (X : words) : rev_words (rev_words X) = X.
Proof. destruct X as [[[x0 x1] x2] x3]. reflexivity. Qed.

Lemma round_undo (k : Z) (X : words) :
  round_value k (rev_words (round_value k X)) = rev_words X.
Proof.
  destruct X as [[[x0 x1] x2] x3]. unfold round_value, rev_words.
  f_equal.
  replace (Z.lxor (Z.lxor (Z.lxor x3 x2) x1) k) with (Z.lxor (Z.lxor (Z.lxor x1 x2) x3) k).
  - rewrite Z.lxor_assoc, Z.lxor_nilpotent, Z.lxor_0_r. reflexivity.
  - f_equal. rewrite (Z.lxor_comm x1 x2), (Z.lxor_comm (Z.lxor x2 x1) x3), Z.lxor_assoc.
    reflexivity.
Qed.

Lemma rounds_undo (ks : list Z) (X : words) :
  rounds (rev ks) (rev_words (rounds ks X)) = rev_words X.
Proof.
  revert X. induction ks as [|k ks IH]; intros X.
  - reflexivity.
  - cbn [rev]. unfold rounds in *. rewrite fold_left_app. cbn [fold_left].
    rewrite IH. apply round_undo.
Qed.

Lemma round_value_words32 (k : Z) (X : words) : words32 X -> words32 (round_value k X).
Proof.
  destruct X as [[[x0 x1] x2] x3]. unfold words32, word32, round_value.
  intros (H0 & H1 & H2 & H3). repeat split; try lia.
  - apply Z.lxor_nonneg. pose proof (t_value_range (Z.lxor (Z.lxor (Z.lxor x1 x2) x3) k)). lia.
  - apply lxor_range; [lia|assumption|apply t_value_range].
Qed.

Lemma rounds_words32 (ks : list Z) (X : words) : words32 X -> words32 (rounds ks X).
Proof.
  revert X. induction ks as [|k ks IH]; intros X HX.
  - assumption.
  - apply IH. apply round_value_words32. assumption.
Qed.

(** * The key schedule of a plain [SM4] instance *)

Lemma key_schedule_step_basic (self : SM4_obj) (i : Z) (st : words * list Z) :
  cls self = Basic -> 0 <= i < 32 ->
  key_schedule_step self i st = inr (key_schedule_value i st).
Proof.
  intros Hcls Hi. destruct st as [[[[k0 k1] k2] k3] rks].
  unfold key_schedule_step, key_schedule_value, call_t_function.
  rewrite (getitem_nth 0) by (change (Z.of_nat (length SM4.CK)) with 32; assumption).
  rewrite Hcls. cbn [bind]. rewrite t_function_total. reflexivity.
Qed.

Lemma key_schedule_length (items : list Z) (st : words * list Z) :
  length (snd (fold_left (fun s i => key_schedule_value i s) items st))
  = (length (snd st) + length items)%nat.
Proof.
  revert st. induction items as [|i items IH]; intros st; cbn [fold_left length].
  - lia.
  - rewrite IH. destruct st as [[[[k0 k1] k2] k3] rks]. cbn [key_schedule_value snd].
    rewrite length_app. cbn [length]. lia.
Qed.

Lemma generate_round_keys_basic (self : SM4_obj) :
  cls self = Basic -> length (key self) = 16%nat ->
  exists rks, _generate_round_keys self = inr rks /\ length rks = 32%nat.
Proof.
  intros Hcls Hlen. unfold _generate_round_keys.
  destruct (key self) as [|b0 k]; [discriminate Hlen|].
  do 16 (destruct k as [|? k]; try discriminate Hlen).
  rewrite load_words_16. cbn [bind].
  change (getitem SM4.FK 0) with (@inr exn _ 0xA3B1BAC6).
  change (getitem SM4.FK 1) with (@inr exn _ 0x56AA3350).
  change (getitem SM4.FK 2) with (@inr exn _ 0x677D9197).
  change (getitem SM4.FK 3) with (@inr exn _ 0xB27022DC).
  cbn [bind].
  rewrite (for_each_pure _ _ key_schedule_value).
  - cbn [bind ret]. eexists. split; [reflexivity|].
    rewrite key_schedule_length. reflexivity.
  - intros i s Hi%in_range. apply key_schedule_step_basic; [assumption|lia].
Qed.

Lemma new_SM4_ok (k : bytes) :
  length k = 16%nat ->
  exists rks, new_SM4 k = inr (mk_SM4 Basic k (Some rks) None) /\ length rks = 32%nat.
Proof.
  intros Hlen. unfold new_SM4, SM4__init__. rewrite Hlen. cbn [Nat.eqb negb].
  destruct (generate_round_keys_basic (mk_SM4 Basic k None None)) as (rks & Hrks & Hl);
    [reflexivity|assumption|].
  rewrite Hrks. cbn [bind ret T_table]. exists rks. split; [reflexivity|assumption].
Qed.

Lemma load_words_bytes (b : bytes) :
  length b = 16%nat -> is_bytes b = true ->
  exists X, load_words b = inr X /\ words32 X.
Proof.
  intros Hlen Hb.
  do 17 (destruct b as [|? b]; try discriminate Hlen).
  rewrite load_words_16. eexists. split; [reflexivity|].
  unfold is_bytes in Hb. cbn [forallb] in Hb.
  repeat (apply andb_prop in Hb; destruct Hb as [?%andb_prop Hb]).
  repeat match goal with
  | H : _ /\ _ |- _ => destruct H as [?%Z.leb_le ?%Z.ltb_lt]
  end.
  unfold words32. repeat split; apply pack4_range; lia.
Qed.

(** C3.  For every 16-byte key and every 16-byte block, [SM4(key)] is
    constructed, [encrypt_block] returns a ciphertext, and [decrypt_block]
    on that ciphertext, under the same instance, returns the block: the same
    32 rounds run with the round keys taken in reverse order undo the
    encryption. *)
Theorem decrypt_block_encrypt_block (k block : bytes) :
  length k = 16%nat -> length block = 16%nat -> is_bytes block = true ->
  exists self ct,
    new_SM4 k = inr self /\
    encrypt_block self block = inr ct /\
    decrypt_block self ct = inr block.
Proof.
  intros Hk Hlen Hb.
  destruct (new_SM4_ok k Hk) as (rks & Hnew & Hrks).
  destruct (load_words_bytes block Hlen Hb) as (X & Hload & HX).
  exists (mk_SM4 Basic k (Some rks) None), (store_words (rounds rks X)).
  split; [assumption|]. split.
  - apply (encrypt_block_basic (mk_SM4 Basic k (Some rks) None) rks); auto.
  - assert (HE : words32 (rounds rks X)) by (apply rounds_words32; assumption).
    rewrite (decrypt_block_basic (mk_SM4 Basic k (Some rks) None) rks
               eq_refl eq_refl Hrks _ (rev_words (rounds rks X))).
    + rewrite rounds_undo. f_equal. apply store_load; assumption.
    + destruct (rounds rks X) as [[[e0 e1] e2] e3]. reflexivity.
    + apply load_store. assumption.
Qed.

Lemma decrypt_block_encrypt_block_witness :
  exists self ct,
    new_SM4 key_1 = inr self /\
    encrypt_block self plain_2 = inr ct /\
    decrypt_block self ct = inr plain_2.
Proof.
  apply (decrypt_block_encrypt_block key_1 plain_2); reflexivity.
Defined.

(** * Which exceptions the cipher can raise *)

Lemma bind_inl {A B} (m : result A) (f : A -> result B) (e : exn) :
  bind m f = inl e -> m = inl e \/ exists a, m = inr a /\ f a = inl e.
Proof.
  destruct m as [e'|a]; cbn [bind]; intros Hm.
  - injection Hm as ->. left. reflexivity.
  - right. exists a. split; [reflexivity|assumption].
Qed.

Lemma getitem_error {A} (l : list A) (i : Z) (e : exn) :
  getitem l i = inl e -> e = IndexError.
Proof.
  unfold getitem.
  destruct (_ && _); [destruct (nth_error _ _)|]; intros He; congruence.
Qed.

Lemma getattr_error {A} (name : string) (field : option A) (e : exn) :
  getattr name field = inl e -> e = AttributeError name.
Proof.
  destruct field; cbn [getattr]; intros He; congruence.
Qed.

Lemma for_each_error {I S} (P : exn -> Prop) (items : list I)
  (body : I -> S -> result S) (s : S) (e : exn) :
  (forall i s e, body i s = inl e -> P e) ->
  for_each items body s = inl e -> P e.
Proof.
  intros Hbody. revert s. induction items as [|i items IH]; intros s; cbn [for_each].
  - discriminate.
  - destruct (body i s) as [e'|s'] eqn:Hb.
    + intros [= <-]. eapply Hbody. eassumption.
    + apply IH.
Qed.

(** Peel the binds of a computation known to have raised: [tac] settles the
    case in which the bound computation is the one that raised. *)
Ltac raised_by H tac :=
  cbv beta in H;
  lazymatch type of H with
  | bind _ _ = inl _ =>
      apply bind_inl in H; destruct H as [H|(? & _ & H)];
      [ tac H | raised_by H tac ]
  | _ => discriminate H
  end.

Ltac index_error H := apply getitem_error in H; subst; reflexivity.
Ltac attribute_error H := apply getattr_error in H; subst; reflexivity.

Lemma sbox_error (x : Z) (e : exn) : SM4._sbox x = inl e -> is_auth_failure e = false.
Proof. unfold SM4._sbox. intros H%getitem_error. subst. reflexivity. Qed.

Lemma call_t_function_error (self : SM4_obj) (x : Z) (e : exn) :
  call_t_function self x = inl e -> is_auth_failure e = false.
Proof.
  unfold call_t_function. destruct (cls self).
  - unfold SM4._t_function. intros H.
    raised_by H ltac:(fun H => apply sbox_error in H; assumption).
  - unfold SM4Optimized._t_function. intros H.
    raised_by H ltac:(fun H => first [index_error H | attribute_error H]).
Qed.

Lemma load_word_error (b : bytes) (i : Z) (e : exn) :
  load_word b i = inl e -> is_auth_failure e = false.
Proof.
  unfold load_word. intros H. raised_by H index_error.
Qed.

Lemma load_words_error (b : bytes) (e : exn) :
  load_words b = inl e -> is_auth_failure e = false.
Proof.
  unfold load_words. intros H.
  raised_by H ltac:(fun H => apply load_word_error in H; assumption).
Qed.

Lemma round_step_error (self : SM4_obj) (idx : Z) (X : words) (e : exn) :
  round_step self idx X = inl e -> is_auth_failure e = false.
Proof.
  destruct X as [[[x0 x1] x2] x3]. unfold round_step. intros H.
  raised_by H ltac:(fun H =>
    first [ index_error H | attribute_error H
          | apply call_t_function_error in H; assumption ]).
Qed.

(** [encrypt_block] never raises the authentication failure of [decrypt]. *)
Lemma encrypt_block_error (self : SM4_obj) (b : bytes) (e : exn) :
  encrypt_block self b = inl e -> is_auth_failure e = false.
Proof.
  unfold encrypt_block. destruct (negb _).
  - intros [= <-]. reflexivity.
  - intros H.
    raised_by H ltac:(fun H =>
      first [ apply load_words_error in H; assumption
            | apply (for_each_error (fun e => is_auth_failure e = false)) in H;
              [ assumption | intros i s e'; apply round_step_error ] ]).
Qed.

Lemma encrypt_block_length (self : SM4_obj) (b out : bytes) :
  encrypt_block self b = inr out -> length out = 16%nat.
Proof.
  unfold encrypt_block.
  destruct (negb (length b =? 16)%nat); [intros H; discriminate H|].
  destruct (load_words b) as [e|X]; cbn [bind]; [intros H; discriminate H|].
  destruct (for_each (range 32) (fun i => round_step self i) X) as [e|Y];
    cbn [bind ret]; [intros H; discriminate H|].
  intros H. injection H as <-.
  destruct Y as [[[y0 y1] y2] y3]. unfold store_words. reflexivity.
Qed.

(** * What the constructors do *)

Lemma key_schedule_step_no_table (self : SM4_obj) (i : Z) (st : words * list Z) :
  cls self = Optimized -> T_table self = None -> 0 <= i < 32 ->
  key_schedule_step self i st = inl (AttributeError "T_table").
Proof.
  intros Hcls Htbl Hi. destruct st as [[[[k0 k1] k2] k3] rks].
  unfold key_schedule_step, call_t_function, SM4Optimized._t_function.
  rewrite (getitem_nth 0) by (change (Z.of_nat (length SM4.CK)) with 32; assumption).
  rewrite Hcls, Htbl. reflexivity.
Qed.

Lemma generate_round_keys_no_table (self : SM4_obj) :
  cls self = Optimized -> T_table self = None -> length (key self) = 16%nat ->
  _generate_round_keys self = inl (AttributeError "T_table").
Proof.
  intros Hcls Htbl Hlen. unfold _generate_round_keys.
  destruct (key self) as [|b0 k]; [discriminate Hlen|].
  do 16 (destruct k as [|? k]; try discriminate Hlen).
  rewrite load_words_16. cbn [bind].
  change (getitem SM4.FK 0) with (@inr exn _ 0xA3B1BAC6).
  change (getitem SM4.FK 1) with (@inr exn _ 0x56AA3350).
  change (getitem SM4.FK 2) with (@inr exn _ 0x677D9197).
  change (getitem SM4.FK 3) with (@inr exn _ 0xB27022DC).
  cbn [bind].
  change (range 32) with (0 :: map Z.of_nat (seq 1 31)).
  cbn [for_each]. rewrite key_schedule_step_no_table by (assumption || lia).
  reflexivity.
Qed.

(** [SM4Optimized(key)]: the base constructor reaches the overridden
    [_t_function] through the key schedule before [_precompute_tables] has
    run, so the read of [self.T_table] raises. *)
Lemma new_SM4Optimized_raises (k : bytes) :
  new_SM4Optimized k =
  inl (if (length k =? 16)%nat then AttributeError "T_table" else ValueError KeyLength).
Proof.
  unfold new_SM4Optimized, SM4Optimized__init__, SM4__init__.
  destruct (length k =? 16)%nat eqn:Hlen; cbn [negb].
  - apply Nat.eqb_eq in Hlen.
    rewrite generate_round_keys_no_table by (reflexivity || assumption). reflexivity.
  - reflexivity.
Qed.

Lemma load_words_ok (b : bytes) :
  length b = 16%nat -> exists X, load_words b = inr X.
Proof.
  intros Hlen. do 17 (destruct b as [|? b]; try discriminate Hlen).
  rewrite load_words_16. eexists. reflexivity.
Qed.

(** C1 (second half, as the code runs).  For every 16-byte key and 16-byte
    block the plain cipher is constructed and returns a ciphertext, while
    the accelerated one is never constructed: [SM4Optimized(key)] raises
    [AttributeError] on [T_table], so there is no accelerated ciphertext to
    compare with. *)
Theorem accelerated_encryption_raises (k block : bytes) :
  length k = 16%nat -> length block = 16%nat ->
  (exists self ct, new_SM4 k = inr self /\ encrypt_block self block = inr ct) /\
  (self <- new_SM4Optimized k;; encrypt_block self block)
  = inl (AttributeError "T_table").
Proof.
  intros Hk Hb. split.
  - destruct (new_SM4_ok k Hk) as (rks & Hnew & Hrks).
    destruct (load_words_ok block Hb) as (X & Hload).
    exists (mk_SM4 Basic k (Some rks) None), (store_words (rounds rks X)).
    split; [assumption|]. apply (encrypt_block_basic (mk_SM4 Basic k (Some rks) None) rks); auto.
  - rewrite new_SM4Optimized_raises, Hk. reflexivity.
Qed.

Lemma accelerated_encryption_raises_witness :
  (exists self ct, new_SM4 key_1 = inr self /\ encrypt_block self plain_1 = inr ct) /\
  (self <- new_SM4Optimized key_1;; encrypt_block self plain_1)
  = inl (AttributeError "T_table").
Proof.
  apply (accelerated_encryption_raises key_1 plain_1); reflexivity.
Defined.

(** The first half of C1, on an instance that carries the tables: after
    [_precompute_tables] the T-table [_t_function] returns, on every integer,
    what the plain [_t_function] returns. *)
Theorem t_table_function_agrees (self : SM4_obj) (x : Z) :
  (self' <- _precompute_tables self;; SM4Optimized._t_function self' x)
  = SM4._t_function x.
Proof.
  rewrite precompute_tables_ok. cbn [bind].
  apply t_function_with_tables. reflexivity.
Qed.

(** C2.  On the two known-answer vectors the plain cipher returns other
    bytes than the expected ciphertexts, and the accelerated cipher is not
    constructed at all. *)
Theorem known_answer_vectors_fail :
  (self <- new_SM4 key_1;; encrypt_block self plain_1) = inr returned_1 /\
  returned_1 <> cipher_1 /\
  (self <- new_SM4 key_2;; encrypt_block self plain_2) = inr returned_2 /\
  returned_2 <> cipher_2 /\ returned_2 <> cipher_2_test_py /\
  (self <- new_SM4Optimized key_1;; encrypt_block self plain_1)
  = inl (AttributeError "T_table") /\
  (self <- new_SM4Optimized key_2;; encrypt_block self plain_2)
  = inl (AttributeError "T_table").
Proof.
  repeat split; try (vm_compute; reflexivity); intros H; discriminate H.
Qed.

(** C9.  A pass of the key schedule is a round of the cipher run with the
    round constants [CK] in the place of the round keys: both apply the same
    [_t_function], hence the same substitution and the same linear
    transform, to every word. *)
Theorem key_schedule_applies_round_transform
  (self : SM4_obj) (i : Z) (K : words) (rks : list Z) :
  key_schedule_step self i (K, rks) =
  (X <- round_step (mk_SM4 (cls self) (key self) (Some SM4.CK) (T_table self)) i K;;
   ret (X, rks ++ [snd X])).
Proof.
  destruct K as [[[k0 k1] k2] k3].
  unfold key_schedule_step, round_step. cbn [round_keys getattr bind].
  destruct (getitem SM4.CK i) as [e|ck]; cbn [bind]; [reflexivity|].
  replace (call_t_function (mk_SM4 (cls self) (key self) (Some SM4.CK) (T_table self)))
    with (call_t_function self) by (destruct self; reflexivity).
  destruct (call_t_function self _) as [e|t]; reflexivity.
Qed.

(** * The GCM session *)

Lemma gcm_init_raises (u k : bytes) (n : option bytes) (t : Z) :
  SM4GCM.__init__ u k n t =
  inl (if (length k =? 16)%nat then AttributeError "T_table" else ValueError KeyLength).
Proof.
  unfold SM4GCM.__init__. rewrite new_SM4Optimized_raises. reflexivity.
Qed.

(** C4.  [SM4GCM(key, nonce)] never returns a session, whatever the key,
    the nonce and the tag length: it starts with [SM4Optimized(key)], which
    raises, so there is nothing to call [encrypt] or [decrypt] on. *)
Theorem gcm_session_never_built (u k : bytes) (n : option bytes) (t : Z) :
  exists e, SM4GCM.__init__ u k n t = inl e /\
            e = (if (length k =? 16)%nat
                 then AttributeError "T_table" else ValueError KeyLength).
Proof.
  eexists. split; [apply gcm_init_raises|reflexivity].
Qed.

(** C7.  With a nonce that is not 12 bytes long, [_generate_initial_counter]
    reads [self.H] while [__init__] has not assigned it yet, and raises
    [AttributeError]; the constructor as a whole raises for every key. *)
Theorem initial_counter_of_other_nonce_raises
  (cipher : SM4_obj) (u k n : bytes) (t : Z) :
  length n <> 12%nat ->
  SM4GCM._generate_initial_counter (mk_GCM cipher t n None None)
  = inl (AttributeError "H") /\
  exists e, SM4GCM.__init__ u k (Some n) t = inl e.
Proof.
  intros Hn. split.
  - unfold SM4GCM._generate_initial_counter. cbn [nonce H].
    apply Nat.eqb_neq in Hn. rewrite Hn. reflexivity.
  - rewrite gcm_init_raises. eexists. reflexivity.
Qed.

Lemma initial_counter_of_other_nonce_raises_witness :
  SM4GCM._generate_initial_counter
    (mk_GCM (mk_SM4 Optimized key_1 None None) 16 short_nonce None None)
  = inl (AttributeError "H") /\
  exists e, SM4GCM.__init__ [] key_1 (Some short_nonce) 16 = inl e.
Proof.
  apply (initial_counter_of_other_nonce_raises
           (mk_SM4 Optimized key_1 None None) [] key_1 short_nonce 16).
  discriminate.
Defined.

(** C6.  A counter whose low 32 bits are all ones is not wrapped to zero:
    [to_bytes(4)] is given [2^32] and raises [OverflowError]. *)
Theorem increment_counter_overflows (counter : bytes) :
  int_from_bytes (slice counter 12 16) = 0xFFFFFFFF ->
  SM4GCM._increment_counter counter = inl OverflowError.
Proof.
  intros Hlow. unfold SM4GCM._increment_counter. rewrite Hlow. reflexivity.
Qed.

Lemma increment_counter_overflows_witness :
  SM4GCM._increment_counter full_counter = inl OverflowError.
Proof.
  apply (increment_counter_overflows full_counter). reflexivity.
Defined.

(** * Logged computations *)

Lemma mbind_ok {A B} (m : M A) (f : A -> M B) (a : A) :
  snd m = inr a -> mbind m f = (fst m ++ fst (f a), snd (f a)).
Proof.
  destruct m as [t r]. cbn [fst snd]. intros ->. unfold mbind.
  destruct (f a) as [t' r']. reflexivity.
Qed.

Lemma mbind_raised {A B} (m : M A) (f : A -> M B) (e : exn) :
  snd m = inl e -> mbind m f = (fst m, inl e).
Proof.
  destruct m as [t r]. cbn [fst snd]. intros ->. reflexivity.
Qed.

Lemma mbind_snd_inl {A B} (m : M A) (f : A -> M B) (e : exn) :
  snd (mbind m f) = inl e ->
  snd m = inl e \/ exists a, snd m = inr a /\ snd (f a) = inl e.
Proof.
  destruct (snd m) as [e'|a] eqn:Hm.
  - rewrite (mbind_raised _ _ _ Hm). cbn [snd]. intros [= <-]. left. reflexivity.
  - rewrite (mbind_ok _ _ _ Hm). cbn [snd]. intros He. right. exists a. auto.
Qed.

Lemma mbind_snd_inr {A B} (m : M A) (f : A -> M B) (b : B) :
  snd (mbind m f) = inr b ->
  exists a, snd m = inr a /\ snd (f a) = inr b.
Proof.
  destruct (snd m) as [e'|a] eqn:Hm.
  - rewrite (mbind_raised _ _ _ Hm). cbn [snd]. discriminate.
  - rewrite (mbind_ok _ _ _ Hm). cbn [snd]. intros He. exists a. auto.
Qed.

Lemma for_eachM_error {I S} (P : exn -> Prop) (items : list I)
  (body : I -> S -> M S) (s : S) (e : exn) :
  (forall i s e, snd (body i s) = inl e -> P e) ->
  snd (for_eachM items body s) = inl e -> P e.
Proof.
  intros Hbody. revert s. induction items as [|i items IH]; intros s; cbn [for_eachM].
  - discriminate.
  - intros [H|(s' & _ & H)]%mbind_snd_inl.
    + eapply Hbody. eassumption.
    + eapply IH. eassumption.
Qed.

(** * The CTR loop *)

Lemma increment_counter_error (counter : bytes) (e : exn) :
  SM4GCM._increment_counter counter = inl e -> e = OverflowError.
Proof.
  unfold SM4GCM._increment_counter. intros H.
  apply bind_inl in H. destruct H as [H|(? & _ & H)]; [|discriminate H].
  unfold int_to_bytes in H. destruct (_ && _) in H; congruence.
Qed.

Lemma ghash_error (a c h : bytes) (e : exn) :
  SM4GCM._ghash a c h = inl e -> e = OverflowError.
Proof.
  unfold SM4GCM._ghash, int_to_bytes. cbv zeta.
  destruct (_ && _); intros H; congruence.
Qed.

Lemma cipher_call_snd (self : SM4GCM_obj) (block : bytes) :
  SM4GCM.cipher_call self block
  = ([EncryptBlock block], encrypt_block (sm4 self) block).
Proof. reflexivity. Qed.

Lemma ctr_step_error (self : SM4GCM_obj) (data : bytes) (i : nat)
  (st : bytes * bytes) (e : exn) :
  snd (SM4GCM.ctr_step self data i st) = inl e -> is_auth_failure e = false.
Proof.
  destruct st as [out counter]. unfold SM4GCM.ctr_step.
  rewrite cipher_call_snd.
  intros [H|(ks & _ & H)]%mbind_snd_inl.
  - cbn [snd] in H. apply encrypt_block_error in H. assumption.
  - apply mbind_snd_inl in H. destruct H as [H|(? & _ & H)]; [discriminate H|].
    apply mbind_snd_inl in H. destruct H as [H|(? & _ & H)]; [|discriminate H].
    cbn [lift snd] in H. apply increment_counter_error in H. subst. reflexivity.
Qed.

Lemma ctr_loop_error (self : SM4GCM_obj) (data : bytes) (e : exn) :
  snd (SM4GCM.ctr_loop self data) = inl e -> is_auth_failure e = false.
Proof.
  unfold SM4GCM.ctr_loop.
  intros [H|(counter & _ & H)]%mbind_snd_inl.
  - cbn [lift snd] in H. apply getattr_error in H. subst. reflexivity.
  - apply mbind_snd_inl in H. destruct H as [H|(? & _ & H)]; [|discriminate H].
    apply (for_eachM_error (fun e => is_auth_failure e = false)) in H; [assumption|].
    intros i s e'. apply ctr_step_error.
Qed.

(** C8.  A tag whose length is not the configured one is refused with the
    tag-length error before anything else happens: the log of the call is
    empty, so the cipher was not called, nothing was compared and no chunk
    was decrypted. *)
Theorem decrypt_rejects_wrong_tag_length
  (self : SM4GCM_obj) (ciphertext tag auth_data : bytes) :
  Z.of_nat (length tag) <> tag_length self ->
  SM4GCM.decrypt self ciphertext tag auth_data = ([], inl (ValueError TagLength)).
Proof.
  intros Hlen. unfold SM4GCM.decrypt.
  apply Z.eqb_neq in Hlen. rewrite Hlen. reflexivity.
Qed.

Lemma decrypt_rejects_wrong_tag_length_witness :
  SM4GCM.decrypt sample_session sample_plaintext (repeat 0 15%nat) sample_auth_data
  = ([], inl (ValueError TagLength)).
Proof.
  apply (decrypt_rejects_wrong_tag_length
           sample_session sample_plaintext (repeat 0 15%nat) sample_auth_data).
  vm_compute. discriminate.
Defined.

(** C5.  When [decrypt] raises the authentication failure, all it has done
    is one cipher call on the initial counter (the tag mask) and the tag
    comparison, which returned [False]: the log holds no output chunk, and
    the result carries no bytes. *)
Theorem decrypt_auth_failure_releases_nothing
  (self : SM4GCM_obj) (ciphertext tag auth_data : bytes) :
  snd (SM4GCM.decrypt self ciphertext tag auth_data) = inl (ValueError AuthFailed) ->
  exists ic a b,
    initial_counter self = Some ic /\
    SM4GCM._constant_time_compare a b = false /\
    SM4GCM.decrypt self ciphertext tag auth_data
    = ([EncryptBlock ic; Compare a b], inl (ValueError AuthFailed)) /\
    filter is_output (fst (SM4GCM.decrypt self ciphertext tag auth_data)) = [].
Proof.
  unfold SM4GCM.decrypt.
  destruct (negb (Z.of_nat (length tag) =? tag_length self)); [discriminate|].
  destruct (initial_counter self) as [ic|]; [|discriminate].
  cbn [getattr]. rewrite (mbind_ok (lift (inr ic)) _ ic) by reflexivity.
  cbn [lift fst app]. rewrite cipher_call_snd.
  destruct (encrypt_block (sm4 self) ic) as [e|mask] eqn:Hmask.
  { rewrite (mbind_raised _ _ e) by reflexivity. cbn [snd].
    intros [= ->]. apply encrypt_block_error in Hmask. discriminate Hmask. }
  rewrite (mbind_ok _ _ mask) by reflexivity. cbn [fst snd].
  destruct (H self) as [h|]; [|discriminate].
  cbn [getattr]. rewrite (mbind_ok (lift (inr h)) _ h) by reflexivity.
  cbn [lift fst app].
  set (a := if (length (xor_bytes tag mask) <? 16)%nat then _ else _).
  destruct (SM4GCM._ghash auth_data ciphertext h) as [e|b] eqn:Hg.
  { rewrite (mbind_raised _ _ e) by reflexivity. cbn [snd app].
    intros [= ->]. apply ghash_error in Hg. discriminate Hg. }
  rewrite (mbind_ok (lift (inr b)) _ b) by reflexivity. cbn [lift fst app].
  rewrite (mbind_ok (emit (Compare a b)) _ tt) by reflexivity.
  cbn [emit fst app].
  destruct (SM4GCM._constant_time_compare a b) eqn:Hcmp; cbn [negb].
  - cbn [snd]. intros Hloop. apply ctr_loop_error in Hloop. discriminate Hloop.
  - intros _. exists ic, a, b. cbn [mraise fst snd app filter is_output].
    split; [reflexivity|]. split; [exact Hcmp|]. split; reflexivity.
Qed.

Lemma decrypt_auth_failure_releases_nothing_witness :
  exists ic a b,
    initial_counter sample_session = Some ic /\
    SM4GCM._constant_time_compare a b = false /\
    SM4GCM.decrypt sample_session sample_plaintext (repeat 0 16%nat) sample_auth_data
    = ([EncryptBlock ic; Compare a b], inl (ValueError AuthFailed)) /\
    filter is_output
      (fst (SM4GCM.decrypt sample_session sample_plaintext (repeat 0 16%nat)
              sample_auth_data)) = [].
Proof.
  apply (decrypt_auth_failure_releases_nothing
           sample_session sample_plaintext (repeat 0 16%nat) sample_auth_data).
  vm_compute. reflexivity.
Defined.

Lemma mbind_lift {A B} (a : A) (f : A -> M B) : mbind (lift (inr a)) f = f a.
Proof. unfold mbind, lift. destruct (f a) as [t r]. reflexivity. Qed.

Lemma mbind_fst {A B} (m : M A) (f : A -> M B) :
  exists t, fst (mbind m f) = fst m ++ t.
Proof.
  destruct (snd m) as [e|a] eqn:Hm.
  - rewrite (mbind_raised _ _ _ Hm). exists []. cbn [fst]. rewrite app_nil_r. reflexivity.
  - rewrite (mbind_ok _ _ _ Hm). exists (fst (f a)). reflexivity.
Qed.

Lemma range16_nonempty (n : nat) :
  (0 < n)%nat -> exists rest, range16 n = 0%nat :: rest.
Proof.
  intros Hn. unfold range16.
  destruct ((n + 15) / 16)%nat as [|m] eqn:Hdiv.
  - apply Nat.div_small_iff in Hdiv; lia.
  - exists (map (fun k => (16 * k)%nat) (seq 1 m)). reflexivity.
Qed.

(** What a successful pass of the CTR loop has done. *)
Lemma ctr_step_inv (self : SM4GCM_obj) (data : bytes) (i : nat)
  (out counter : bytes) (st : bytes * bytes) :
  snd (SM4GCM.ctr_step self data i (out, counter)) = inr st ->
  exists ks counter',
    encrypt_block (sm4 self) counter = inr ks /\
    SM4GCM._increment_counter counter = inr counter' /\
    st = (out ++ xor_bytes (slice data i (i + 16)) ks, counter').
Proof.
  unfold SM4GCM.ctr_step. rewrite cipher_call_snd.
  intros (ks & Hks & H)%mbind_snd_inr. cbn [snd] in Hks.
  apply mbind_snd_inr in H. destruct H as ([] & _ & H).
  apply mbind_snd_inr in H. destruct H as (counter' & Hinc & H).
  cbn [lift snd] in Hinc. cbn [mret snd] in H. injection H as <-.
  exists ks, counter'. auto.
Qed.

Lemma ctr_step_head (self : SM4GCM_obj) (data : bytes) (i : nat)
  (out counter : bytes) :
  exists t, fst (SM4GCM.ctr_step self data i (out, counter)) = EncryptBlock counter :: t.
Proof.
  unfold SM4GCM.ctr_step. rewrite cipher_call_snd.
  destruct (mbind_fst ([EncryptBlock counter], encrypt_block (sm4 self) counter)
              (fun keystream =>
                 _ <-- emit (Output (xor_bytes (slice data i (i + 16)) keystream));;
                 counter0 <-- lift (SM4GCM._increment_counter counter);;
                 mret (out ++ xor_bytes (slice data i (i + 16)) keystream, counter0)))
    as (t & Ht).
  exists t. exact Ht.
Qed.

Lemma ctr_items_prefix (self : SM4GCM_obj) (data : bytes) (items : list nat)
  (out counter : bytes) (st : bytes * bytes) :
  snd (for_eachM items (SM4GCM.ctr_step self data) (out, counter)) = inr st ->
  exists rest, fst st = out ++ rest.
Proof.
  revert out counter. induction items as [|i items IH]; intros out counter; cbn [for_eachM].
  - cbn [mret snd]. intros [= <-]. exists []. cbn [fst]. rewrite app_nil_r. reflexivity.
  - intros (s' & Hstep & Hrest)%mbind_snd_inr.
    apply ctr_step_inv in Hstep. destruct Hstep as (ks & counter' & _ & _ & ->).
    apply IH in Hrest. destruct Hrest as (rest & ->).
    exists (xor_bytes (slice data i (i + 16)) ks ++ rest). rewrite app_assoc. reflexivity.
Qed.

Lemma ctr_loop_inv (self : SM4GCM_obj) (data out : bytes) :
  data <> [] ->
  snd (SM4GCM.ctr_loop self data) = inr out ->
  exists ic mask rest t,
    initial_counter self = Some ic /\
    encrypt_block (sm4 self) ic = inr mask /\
    out = xor_bytes (firstn 16 data) mask ++ rest /\
    fst (SM4GCM.ctr_loop self data) = EncryptBlock ic :: t.
Proof.
  intros Hdata. unfold SM4GCM.ctr_loop.
  destruct (initial_counter self) as [ic|]; [|discriminate].
  cbn [getattr]. rewrite mbind_lift.
  destruct (range16_nonempty (length data)) as (items & ->).
  { destruct data; [congruence|cbn [length]; lia]. }
  cbn [for_eachM].
  intros (st & Hloop & Hout)%mbind_snd_inr. cbn [mret snd] in Hout. injection Hout as <-.
  apply mbind_snd_inr in Hloop. destruct Hloop as (s' & Hstep & Hrest).
  apply ctr_step_inv in Hstep. destruct Hstep as (mask & counter' & Hmask & _ & ->).
  apply ctr_items_prefix in Hrest. destruct Hrest as (rest & ->).
  exists ic, mask, rest.
  match goal with
  | |- context [fst (mbind (mbind ?m ?f) ?g)] =>
      destruct (mbind_fst (mbind m f) g) as (t1 & Ht1);
      destruct (mbind_fst m f) as (t2 & Ht2)
  end.
  destruct (ctr_step_head self data 0 [] ic) as (t3 & Ht3).
  rewrite Ht1, Ht2.
  exists ((t3 ++ t2) ++ t1).
  split; [reflexivity|]. split; [assumption|]. split; [reflexivity|].
  apply (f_equal (fun l => (l ++ t2) ++ t1)) in Ht3. exact Ht3.
Qed.

(** C10.  Whenever [encrypt] returns on a non-empty plaintext, the bytes
    XORed against the first (up to 16) bytes of the plaintext are
    [encrypt_block(initial_counter)], and the same 16 bytes are XORed with
    the GHASH value to form the tag: the CTR loop starts from the initial
    counter itself, which the first logged cipher call shows. *)
Theorem first_keystream_block_is_tag_mask
  (self : SM4GCM_obj) (plaintext auth_data ciphertext tag : bytes) :
  plaintext <> [] ->
  snd (SM4GCM.encrypt self plaintext auth_data) = inr (ciphertext, tag) ->
  exists ic mask h g rest,
    initial_counter self = Some ic /\
    H self = Some h /\
    encrypt_block (sm4 self) ic = inr mask /\
    length mask = 16%nat /\
    ciphertext = xor_bytes (firstn 16 plaintext) mask ++ rest /\
    SM4GCM._ghash auth_data ciphertext h = inr g /\
    tag = slice_to (xor_bytes g mask) (tag_length self) /\
    hd_error (fst (SM4GCM.encrypt self plaintext auth_data)) = Some (EncryptBlock ic).
Proof.
  intros Hpt Henc. unfold SM4GCM.encrypt in *. cbv zeta in *.
  match goal with
  | |- context [fst (mbind ?m ?f)] => destruct (mbind_fst m f) as (t0 & Ht0)
  end.
  rewrite Ht0. clear Ht0.
  apply mbind_snd_inr in Henc. destruct Henc as (ct & Hloop & Henc).
  apply (ctr_loop_inv self plaintext ct Hpt) in Hloop.
  destruct Hloop as (ic & mask & rest & t & Hic & Hmask & -> & ->).
  apply mbind_snd_inr in Henc. destruct Henc as (h & Hh & Henc).
  apply mbind_snd_inr in Henc. destruct Henc as (g & Hg & Henc).
  apply mbind_snd_inr in Henc. destruct Henc as (ic' & Hic' & Henc).
  apply mbind_snd_inr in Henc. destruct Henc as (mask' & Hmask' & Henc).
  cbn [lift snd] in Hh, Hg, Hic'. rewrite cipher_call_snd in Hmask'. cbn [snd] in Hmask'.
  destruct (H self) as [h0|]; [|discriminate Hh]. cbn [getattr] in Hh.
  injection Hh as ->.
  rewrite Hic in Hic'. cbn [getattr] in Hic'. injection Hic' as <-.
  rewrite Hmask in Hmask'. injection Hmask' as <-.
  cbn [mret snd] in Henc. injection Henc as <- <-.
  exists ic, mask, h, g, rest.
  repeat split; try assumption; try reflexivity.
  eapply encrypt_block_length. eassumption.
Qed.

Lemma first_keystream_block_is_tag_mask_witness :
  exists ic mask h g rest,
    initial_counter sample_session = Some ic /\
    H sample_session = Some h /\
    encrypt_block (sm4 sample_session) ic = inr mask /\
    length mask = 16%nat /\
    sample_ciphertext = xor_bytes (firstn 16 sample_plaintext) mask ++ rest /\
    SM4GCM._ghash sample_auth_data sample_ciphertext h = inr g /\
    sample_tag = slice_to (xor_bytes g mask) (tag_length sample_session) /\
    hd_error (fst (SM4GCM.encrypt sample_session sample_plaintext sample_auth_data))
    = Some (EncryptBlock ic).
Proof.
  apply (first_keystream_block_is_tag_mask
           sample_session sample_plaintext sample_auth_data sample_ciphertext sample_tag).
  - discriminate.
  - vm_compute. reflexivity.
Defined.

(** * Further properties of the code *)

Lemma call_t_function_with_tables (k : bytes) (rks rks' : option (list Z))
  (tbl : option (list (list Z))) (x : Z) :
  call_t_function (mk_SM4 Optimized k rks (Some expected_tables)) x
  = call_t_function (mk_SM4 Basic k rks' tbl) x.
Proof.
  unfold call_t_function. cbn [cls].
  apply t_function_with_tables. reflexivity.
Qed.

Lemma for_each_ext {I S} (items : list I) (body body' : I -> S -> result S) (s : S) :
  (forall i s, body i s = body' i s) ->
  for_each items body s = for_each items body' s.
Proof.
  intros Hext. revert s. induction items as [|i items IH]; intros s; cbn [for_each].
  - reflexivity.
  - rewrite Hext. destruct (body' i s); [reflexivity|apply IH].
Qed.

(** On an instance that carries the tables and the round keys of a plain
    instance, accelerated encryption of a block returns what plain
    encryption returns, errors included. *)
Theorem encrypt_block_with_tables (k : bytes) (rks : option (list Z)) (block : bytes) :
  (self <- _precompute_tables (mk_SM4 Optimized k rks None);; encrypt_block self block)
  = encrypt_block (mk_SM4 Basic k rks None) block.
Proof.
  rewrite precompute_tables_ok. cbn [bind].
  unfold encrypt_block. cbn [cls key round_keys T_table].
  destruct (negb (length block =? 16)%nat); [reflexivity|].
  destruct (load_words block) as [e|X]; cbn [bind]; [reflexivity|].
  rewrite (for_each_ext _ _ (fun i => round_step (mk_SM4 Basic k rks None) i)).
  - reflexivity.
  - intros i [[[x0 x1] x2] x3]. unfold round_step. cbn [round_keys].
    destruct (getattr "round_keys" rks) as [e|l]; [reflexivity|]. cbn [bind].
    destruct (getitem l i) as [e|rk]; [reflexivity|]. cbn [bind].
    rewrite (call_t_function_with_tables k rks rks None). reflexivity.
Qed.

(** [SM4(key)] holds exactly 32 round keys. *)
Theorem round_keys_are_32 (k : bytes) :
  length k = 16%nat ->
  exists self rks,
    new_SM4 k = inr self /\ round_keys self = Some rks /\ length rks = 32%nat.
Proof.
  intros Hk. destruct (new_SM4_ok k Hk) as (rks & Hnew & Hlen).
  exists (mk_SM4 Basic k (Some rks) None), rks. auto.
Qed.

Lemma round_keys_are_32_witness :
  exists self rks,
    new_SM4 key_2 = inr self /\ round_keys self = Some rks /\ length rks = 32%nat.
Proof.
  apply (round_keys_are_32 key_2). reflexivity.
Defined.

(** The length checks: a key that is not 16 bytes long is refused by both
    constructors, a block that is not 16 bytes long by both block
    operations, before anything is computed. *)
Theorem length_errors (c : sm4_class) (self : SM4_obj) (b : bytes) :
  length b <> 16%nat ->
  SM4__init__ c b = inl (ValueError KeyLength) /\
  encrypt_block self b = inl (ValueError BlockLengthEnc) /\
  decrypt_block self b = inl (ValueError BlockLengthDec).
Proof.
  intros Hb. apply Nat.eqb_neq in Hb.
  unfold SM4__init__, encrypt_block, decrypt_block. rewrite Hb. auto.
Qed.

Lemma length_errors_witness :
  SM4__init__ Basic short_nonce = inl (ValueError KeyLength) /\
  encrypt_block sample_cipher short_nonce = inl (ValueError BlockLengthEnc) /\
  decrypt_block sample_cipher short_nonce = inl (ValueError BlockLengthDec).
Proof.
  apply (length_errors Basic sample_cipher short_nonce). discriminate.
Defined.

Lemma increment_counter_step (counter : bytes) :
  length counter = 16%nat -> is_bytes counter = true ->
  int_from_bytes (slice counter 12 16) < 0xFFFFFFFF ->
  exists counter',
    SM4GCM._increment_counter counter = inr counter' /\
    length counter' = 16%nat /\
    is_bytes counter' = true /\
    slice counter' 0 12 = slice counter 0 12 /\
    int_from_bytes (slice counter' 12 16) = int_from_bytes (slice counter 12 16) + 1.
Proof.
  intros Hlen Hb.
  do 17 (destruct counter as [|? counter]; try discriminate Hlen).
  unfold is_bytes in Hb. cbn [forallb] in Hb.
  repeat (apply andb_prop in Hb; destruct Hb as [?%andb_prop Hb]).
  repeat match goal with
  | H : _ /\ _ |- _ => destruct H as [?%Z.leb_le ?%Z.ltb_lt]
  end.
  unfold SM4GCM._increment_counter, int_to_bytes.
  cbn [slice skipn firstn Nat.sub int_from_bytes fold_left].
  intros Hlow.
  set (x := (((0 * 256 + z11) * 256 + z12) * 256 + z13) * 256 + z14) in *.
  assert (Hx : 0 <= x + 1 < 256 ^ Z.of_nat 4) by (change (256 ^ Z.of_nat 4) with 4294967296; lia).
  destruct (Z.leb_spec 0 (x + 1)) as [_|?]; [|lia].
  destruct (Z.ltb_spec (x + 1) (256 ^ Z.of_nat 4)) as [_|?]; [|lia].
  cbn [andb bind ret be_digits app length firstn skipn].
  eexists. split; [reflexivity|]. split; [reflexivity|].
  change (256 ^ Z.of_nat 4) with 4294967296 in Hx.
  split; [|split; [reflexivity|]].
  - unfold is_bytes. cbn [forallb].
    repeat match goal with
    | |- context [?a mod 256] =>
        let Hm := fresh "Hm" in
        pose proof (Z.mod_pos_bound a 256 eq_refl) as Hm;
        generalize dependent (a mod 256); intros
    end.
    repeat (apply andb_true_intro; split); try reflexivity;
      first [apply Z.leb_le | apply Z.ltb_lt]; lia.
  - cbn [slice skipn firstn Nat.sub int_from_bytes fold_left app].
    clearbody x. clear - Hx. Z.div_mod_to_equations. lia.
Qed.

(** Below the overflow, [_increment_counter] adds one to the big-endian
    value of the last four bytes and leaves the first twelve alone. *)
Theorem increment_counter_adds_one (counter : bytes) :
  length counter = 16%nat -> is_bytes counter = true ->
  int_from_bytes (slice counter 12 16) < 0xFFFFFFFF ->
  exists counter',
    SM4GCM._increment_counter counter = inr counter' /\
    length counter' = 16%nat /\
    is_bytes counter' = true /\
    slice counter' 0 12 = slice counter 0 12 /\
    int_from_bytes (slice counter' 12 16) = int_from_bytes (slice counter 12 16) + 1.
Proof.
  intros Hlen Hb Hlow.
  destruct (increment_counter_step counter Hlen Hb Hlow) as (c' & Hret & Hrest).
  exists c'. split; assumption.
Qed.

Lemma increment_counter_adds_one_witness :
  exists counter',
    SM4GCM._increment_counter (zero_nonce ++ [0; 0; 0; 1]) = inr counter' /\
    length counter' = 16%nat /\
    is_bytes counter' = true /\
    slice counter' 0 12 = slice (zero_nonce ++ [0; 0; 0; 1]) 0 12 /\
    int_from_bytes (slice counter' 12 16)
    = int_from_bytes (slice (zero_nonce ++ [0; 0; 0; 1]) 12 16) + 1.
Proof.
  apply (increment_counter_adds_one (zero_nonce ++ [0; 0; 0; 1])).
  - reflexivity.
  - reflexivity.
  - vm_compute. reflexivity.
Defined.

(** * Encrypting and decrypting on one session state *)

Lemma mbind_snd {A B} (m : M A) (f : A -> M B) :
  snd (mbind m f) = bind (snd m) (fun a => snd (f a)).
Proof.
  destruct m as [t [e|a]]; cbn [mbind snd bind]; [reflexivity|].
  destruct (f a) as [t' r]. reflexivity.
Qed.

Lemma xor_bytes_split (ks data rest : bytes) :
  xor_bytes data (ks ++ rest)
  = xor_bytes (firstn (length ks) data) ks ++ xor_bytes (skipn (length ks) data) rest.
Proof.
  unfold xor_bytes. revert data.
  induction ks as [|k ks IH]; intros data; cbn [length firstn skipn app combine map].
  - reflexivity.
  - destruct data as [|d data]; cbn [firstn skipn combine map app]; [reflexivity|].
    rewrite IH. reflexivity.
Qed.

Lemma xor_bytes_length (a b : bytes) :
  length (xor_bytes a b) = Nat.min (length a) (length b).
Proof. unfold xor_bytes. rewrite length_map, length_combine. reflexivity. Qed.

Lemma xor_bytes_cancel (a b : bytes) :
  (length a <= length b)%nat -> xor_bytes (xor_bytes a b) b = a.
Proof.
  unfold xor_bytes. revert b.
  induction a as [|x a IH]; intros b Hlen; [reflexivity|].
  destruct b as [|y b]; cbn [length] in Hlen; [lia|].
  cbn [combine map fst snd]. rewrite IH by lia.
  rewrite Z.lxor_assoc, Z.lxor_nilpotent, Z.lxor_0_r. reflexivity.
Qed.

Lemma skipn_16 (j : nat) (data : bytes) :
  skipn 16 (skipn (16 * j) data) = skipn (16 * S j) data.
Proof. rewrite skipn_skipn. f_equal. lia. Qed.

Lemma ctr_step_snd (self : SM4GCM_obj) (data : bytes) (i : nat) (out counter : bytes) :
  snd (SM4GCM.ctr_step self data i (out, counter))
  = (ks <- encrypt_block (sm4 self) counter;;
     c' <- SM4GCM._increment_counter counter;;
     ret (out ++ xor_bytes (firstn 16 (skipn i data)) ks, c')).
Proof.
  unfold SM4GCM.ctr_step. rewrite mbind_snd, cipher_call_snd. cbn [snd].
  destruct (encrypt_block (sm4 self) counter) as [e|ks]; cbn [bind]; [reflexivity|].
  rewrite mbind_snd. cbn [emit snd bind]. rewrite mbind_snd. cbn [lift snd].
  destruct (SM4GCM._increment_counter counter) as [e|c']; cbn [bind]; [reflexivity|].
  cbn [mret snd ret]. unfold slice.
  replace (i + 16 - i)%nat with 16%nat by lia. reflexivity.
Qed.

Lemma keystream_length (self : SM4GCM_obj) (m : nat) (c K c' : bytes) :
  keystream self c m = inr (K, c') -> length K = (16 * m)%nat.
Proof.
  revert c K c'. induction m as [|m IH]; intros c K c'; cbn [keystream].
  - intros [= <- _]. reflexivity.
  - destruct (encrypt_block (sm4 self) c) as [e|ks] eqn:Hks; cbn [bind]; [discriminate|].
    destruct (SM4GCM._increment_counter c) as [e|c1]; cbn [bind]; [discriminate|].
    destruct (keystream self c1 m) as [e|[K1 c2]] eqn:Hrest; cbn [bind ret fst snd];
      [discriminate|].
    intros [= <- _]. rewrite length_app.
    rewrite (encrypt_block_length _ _ _ Hks), (IH _ _ _ Hrest). lia.
Qed.

(** The CTR loop XORs the data with the keystream. *)
Lemma ctr_items_keystream (self : SM4GCM_obj) (data : bytes) (m j : nat)
  (out c : bytes) :
  snd (for_eachM (map (fun k => (16 * k)%nat) (seq j m))
         (SM4GCM.ctr_step self data) (out, c))
  = (r <- keystream self c m;;
     ret (out ++ xor_bytes (skipn (16 * j) data) (fst r), snd r)).
Proof.
  revert j out c. induction m as [|m IH]; intros j out c;
    cbn [seq map for_eachM keystream].
  - cbn [mret snd bind ret fst]. unfold xor_bytes.
    rewrite combine_nil, app_nil_r. reflexivity.
  - rewrite mbind_snd, ctr_step_snd.
    destruct (encrypt_block (sm4 self) c) as [e|ks] eqn:Hks; cbn [bind]; [reflexivity|].
    destruct (SM4GCM._increment_counter c) as [e|c1]; cbn [bind ret]; [reflexivity|].
    rewrite IH.
    destruct (keystream self c1 m) as [e|[K1 c2]]; cbn [bind ret fst snd]; [reflexivity|].
    rewrite xor_bytes_split, (encrypt_block_length _ _ _ Hks), skipn_16, app_assoc.
    reflexivity.
Qed.

Lemma ctr_loop_snd (self : SM4GCM_obj) (data : bytes) :
  snd (SM4GCM.ctr_loop self data)
  = (ic <- getattr "initial_counter" (initial_counter self);;
     r <- keystream self ic ((length data + 15) / 16);;
     ret (xor_bytes data (fst r))).
Proof.
  unfold SM4GCM.ctr_loop. rewrite mbind_snd. cbn [lift snd].
  destruct (getattr "initial_counter" (initial_counter self)) as [e|ic]; cbn [bind];
    [reflexivity|].
  rewrite mbind_snd. unfold range16. rewrite ctr_items_keystream.
  destruct (keystream self ic _) as [e|[K c]]; cbn [bind ret mret fst snd]; reflexivity.
Qed.

Lemma blocks_cover (n : nat) : (n <= 16 * ((n + 15) / 16))%nat.
Proof.
  pose proof (Nat.div_mod_eq (n + 15) 16) as Hdm.
  pose proof (Nat.mod_upper_bound (n + 15) 16) as Hr. lia.
Qed.

Lemma ctr_output_length (self : SM4GCM_obj) (data out : bytes) :
  snd (SM4GCM.ctr_loop self data) = inr out -> length out = length data.
Proof.
  rewrite ctr_loop_snd.
  destruct (getattr "initial_counter" (initial_counter self)) as [e|ic]; cbn [bind];
    [discriminate|].
  destruct (keystream self ic ((length data + 15) / 16)) as [e|[K c]] eqn:HK;
    cbn [bind ret fst]; [discriminate|].
  intros [= <-]. rewrite xor_bytes_length, (keystream_length _ _ _ _ _ HK).
  pose proof (blocks_cover (length data)). lia.
Qed.

Lemma be_digits_length (n : nat) (x : Z) : length (be_digits n x) = n.
Proof.
  revert x. induction n as [|n IH]; intros x; cbn [be_digits]; [reflexivity|].
  rewrite length_app, IH. cbn [length]. lia.
Qed.

Lemma int_to_bytes_length (x : Z) (n : nat) (b : bytes) :
  int_to_bytes x n = inr b -> length b = n.
Proof.
  unfold int_to_bytes. intros Hb.
  destruct ((0 <=? x) && (x <? 256 ^ Z.of_nat n)); [|discriminate Hb].
  assert (Heq : b = be_digits n x) by congruence.
  rewrite Heq. apply be_digits_length.
Qed.

Lemma ghash_length (a c h g : bytes) :
  SM4GCM._ghash a c h = inr g -> length g = 16%nat.
Proof. unfold SM4GCM._ghash. apply int_to_bytes_length. Qed.

Lemma constant_time_compare_refl (a : bytes) : SM4GCM._constant_time_compare a a = true.
Proof.
  unfold SM4GCM._constant_time_compare. rewrite Nat.eqb_refl. cbn [negb].
  assert (Hfold : forall l r,
            fold_left (fun r p => Z.lor r (Z.lxor (fst p) (snd p))) (combine l l) r = r).
  { induction l as [|x l IH]; intros r; cbn [combine fold_left fst snd]; [reflexivity|].
    rewrite Z.lxor_nilpotent, Z.lor_0_r. apply IH. }
  rewrite Hfold. reflexivity.
Qed.

(** On any session state whose tag length is 16: when [encrypt] returns a
    ciphertext and a tag, [decrypt] on them with the same associated data
    returns the plaintext. *)
Lemma decrypt_after_encrypt
  (self : SM4GCM_obj) (plaintext auth_data ciphertext tag : bytes) :
  tag_length self = 16 ->
  snd (SM4GCM.encrypt self plaintext auth_data) = inr (ciphertext, tag) ->
  snd (SM4GCM.decrypt self ciphertext tag auth_data) = inr plaintext.
Proof.
  intros Htl Henc. unfold SM4GCM.encrypt in Henc. cbv zeta in Henc.
  rewrite mbind_snd, ctr_loop_snd in Henc.
  destruct (initial_counter self) as [ic|] eqn:Hic; [|discriminate Henc].
  cbn [getattr bind] in Henc.
  destruct (keystream self ic ((length plaintext + 15) / 16)) as [e|[K cfin]] eqn:HK;
    [discriminate Henc|].
  cbn [bind ret fst] in Henc.
  rewrite mbind_snd in Henc. cbn [lift snd] in Henc.
  destruct (H self) as [h|] eqn:Hh; [|discriminate Henc]. cbn [getattr bind] in Henc.
  rewrite mbind_snd in Henc. cbn [lift snd] in Henc.
  destruct (SM4GCM._ghash auth_data (xor_bytes plaintext K) h) as [e|g] eqn:Hg;
    [discriminate Henc|].
  cbn [bind] in Henc. rewrite mbind_snd in Henc. cbn [lift snd getattr bind] in Henc.
  rewrite mbind_snd, cipher_call_snd in Henc. cbn [snd] in Henc.
  destruct (encrypt_block (sm4 self) ic) as [e|mask] eqn:Hmask; [discriminate Henc|].
  cbn [bind mret snd] in Henc. injection Henc as <- <-.
  pose proof (keystream_length _ _ _ _ _ HK) as HlenK.
  pose proof (blocks_cover (length plaintext)) as Hcover.
  pose proof (ghash_length _ _ _ _ Hg) as Hlg.
  pose proof (encrypt_block_length _ _ _ Hmask) as Hlm.
  assert (Hlct : length (xor_bytes plaintext K) = length plaintext)
    by (rewrite xor_bytes_length; lia).
  assert (Hlt : length (xor_bytes g mask) = 16%nat)
    by (rewrite xor_bytes_length; lia).
  assert (Htag : slice_to (xor_bytes g mask) (tag_length self) = xor_bytes g mask).
  { unfold slice_to. rewrite Htl. cbn [Z.ltb Z.compare].
    apply firstn_all2. rewrite Hlt. reflexivity. }
  rewrite Htag. unfold SM4GCM.decrypt. rewrite Hic, Hh.
  rewrite Hlt, Htl. change (Z.of_nat 16 =? 16) with true. cbn [negb].
  rewrite mbind_snd. cbn [lift snd getattr bind].
  rewrite mbind_snd, cipher_call_snd. cbn [snd]. rewrite Hmask. cbn [bind].
  rewrite xor_bytes_cancel by lia. rewrite Hlg.
  change (16 <? 16)%nat with false. cbv iota.
  rewrite mbind_snd. cbn [lift snd getattr bind].
  rewrite mbind_snd. cbn [lift snd]. rewrite Hg. cbn [bind].
  rewrite mbind_snd. cbn [emit snd bind].
  rewrite constant_time_compare_refl. cbn [negb].
  rewrite ctr_loop_snd, Hic. cbn [getattr bind].
  rewrite Hlct, HK. cbn [bind ret fst].
  rewrite xor_bytes_cancel by lia. reflexivity.
Qed.


(** * Decryption as encryption under reversed round keys *)

Lemma for_each_ext_in {I S} (items : list I) (body body' : I -> S -> result S) (s : S) :
  (forall i s, In i items -> body i s = body' i s) ->
  for_each items body s = for_each items body' s.
Proof.
  revert s. induction items as [|i items IH]; intros s Hext; cbn [for_each].
  - reflexivity.
  - rewrite Hext by (left; reflexivity).
    destruct (body' i s) as [e|s']; [reflexivity|].
    apply IH. intros j s'' Hj. apply Hext. right. assumption.
Qed.

Lemma getitem_rev {A} (l : list A) (d : A) (i : Z) :
  0 <= i < Z.of_nat (length l) ->
  getitem l (Z.of_nat (length l) - 1 - i) = getitem (rev l) i.
Proof.
  intros Hi.
  rewrite (getitem_nth d l) by lia.
  rewrite (getitem_nth d (rev l)) by (rewrite length_rev; assumption).
  f_equal. rewrite rev_nth by lia. f_equal. lia.
Qed.

(** [decrypt_block] on a 16-byte block is [encrypt_block] on the instance
    whose 32 round keys are taken in reverse order, for either class. *)
Theorem decrypt_block_reverses_round_keys (self : SM4_obj) (rks : list Z) (b : bytes) :
  round_keys self = Some rks -> length rks = 32%nat -> length b = 16%nat ->
  decrypt_block self b
  = encrypt_block (mk_SM4 (cls self) (key self) (Some (rev rks)) (T_table self)) b.
Proof.
  intros Hrks Hlen Hb. unfold decrypt_block, encrypt_block. rewrite Hb.
  cbn [Nat.eqb negb].
  destruct (load_words b) as [e|X]; cbn [bind]; [reflexivity|].
  rewrite (for_each_ext_in _ _
             (fun i => round_step
                         (mk_SM4 (cls self) (key self) (Some (rev rks)) (T_table self)) i)).
  - reflexivity.
  - intros i [[[x0 x1] x2] x3] Hi%in_range. unfold round_step.
    rewrite Hrks. cbn [round_keys getattr bind].
    replace (31 - i) with (Z.of_nat (length rks) - 1 - i) by (rewrite Hlen; lia).
    rewrite (getitem_rev rks 0) by (rewrite Hlen; lia).
    destruct (getitem (rev rks) i) as [e|rk]; cbn [bind]; [reflexivity|].
    replace (call_t_function
               (mk_SM4 (cls self) (key self) (Some (rev rks)) (T_table self)))
      with (call_t_function self) by (destruct self; reflexivity).
    reflexivity.
Qed.

Lemma decrypt_block_reverses_round_keys_witness :
  decrypt_block sample_cipher cipher_1
  = encrypt_block
      (mk_SM4 (cls sample_cipher) (key sample_cipher)
         (Some (rev sample_round_keys)) (T_table sample_cipher)) cipher_1.
Proof.
  apply (decrypt_block_reverses_round_keys sample_cipher sample_round_keys cipher_1);
    reflexivity.
Defined.

(** * The tag comparison *)

Lemma compare_fold_zero (ps : list (Z * Z)) (r : Z) :
  fold_left (fun r p => Z.lor r (Z.lxor (fst p) (snd p))) ps r = 0 <->
  r = 0 /\ Forall (fun p => fst p = snd p) ps.
Proof.
  revert r. induction ps as [|p ps IH]; intros r; cbn [fold_left].
  - split; [intros ->; split; [reflexivity|constructor]|intros [-> _]; reflexivity].
  - rewrite IH, Z.lor_eq_0_iff, Z.lxor_eq_0_iff. split.
    + intros [[Hr Hp] Hps]. split; [assumption|]. constructor; assumption.
    + intros [Hr Hall]. inversion Hall; subst. auto.
Qed.

Lemma combine_same {A} (a b : list A) :
  length a = length b -> Forall (fun p => fst p = snd p) (combine a b) -> a = b.
Proof.
  revert b. induction a as [|x a IH]; intros [|y b] Hlen Hall;
    try discriminate Hlen; [reflexivity|].
  cbn [combine] in Hall. inversion Hall as [|? ? Hxy Hrest]; subst.
  cbn [fst snd] in Hxy. subst. f_equal. apply IH; [|assumption].
  cbn [length] in Hlen. lia.
Qed.

Lemma constant_time_compare_eq (a b : bytes) :
  SM4GCM._constant_time_compare a b = true -> a = b.
Proof.
  unfold SM4GCM._constant_time_compare.
  destruct (length a =? length b)%nat eqn:Hlen; cbn [negb]; [|discriminate].
  apply Nat.eqb_eq in Hlen. intros Hz%Z.eqb_eq.
  apply compare_fold_zero in Hz. destruct Hz as [_ Hall].
  apply combine_same; assumption.
Qed.

(** [_constant_time_compare] returns [True] exactly on equal arguments. *)
Theorem constant_time_compare_spec (a b : bytes) :
  SM4GCM._constant_time_compare a b = true <-> a = b.
Proof.
  split.
  - apply constant_time_compare_eq.
  - intros <-. apply constant_time_compare_refl.
Qed.

(** * The methods return on usable states *)

Lemma call_t_function_usable (c : SM4_obj) (x : Z) :
  cls c = Basic \/ T_table c = Some expected_tables ->
  call_t_function c x = inr (t_value x).
Proof.
  intros Hc. unfold call_t_function. rewrite <- t_function_total.
  destruct (cls c) eqn:Hcls; [reflexivity|].
  destruct Hc as [Hb|Htbl]; [discriminate Hb|].
  apply t_function_with_tables. assumption.
Qed.

Lemma round_step_usable (c : SM4_obj) (rks : list Z) (idx : Z) (X : words) :
  round_keys c = Some rks -> length rks = 32%nat ->
  cls c = Basic \/ T_table c = Some expected_tables ->
  0 <= idx < 32 ->
  round_step c idx X = inr (round_value (nth (Z.to_nat idx) rks 0) X).
Proof.
  intros Hrks Hlen Hc Hidx. destruct X as [[[x0 x1] x2] x3].
  unfold round_step. rewrite Hrks. cbn [getattr bind].
  rewrite (getitem_nth 0) by (rewrite Hlen; assumption). cbn [bind].
  rewrite call_t_function_usable by assumption. reflexivity.
Qed.

Lemma store_words_bytes (X : words) :
  length (store_words X) = 16%nat /\ is_bytes (store_words X) = true.
Proof.
  destruct X as [[[x0 x1] x2] x3]. unfold store_words. split; [reflexivity|].
  unfold is_bytes. cbn [forallb].
  repeat match goal with
  | |- context [Z.land ?a 0xFF] =>
      let Hm := fresh "Hm" in
      pose proof (mask8_range a) as Hm;
      generalize dependent (Z.land a 0xFF); intros
  end.
  repeat (apply andb_true_intro; split); try reflexivity;
    first [apply Z.leb_le | apply Z.ltb_lt]; lia.
Qed.

(** On a usable instance [encrypt_block] returns 16 well-formed bytes for
    every 16-byte block. *)
Lemma encrypt_block_usable (c : SM4_obj) (b : bytes) :
  usable_cipher c -> length b = 16%nat ->
  exists out, encrypt_block c b = inr out /\ length out = 16%nat /\ is_bytes out = true.
Proof.
  intros [(rks & Hrks & Hlen) Hcls] Hb.
  destruct (load_words_ok b Hb) as (X & Hload).
  exists (store_words (rounds rks X)). split; [|apply store_words_bytes].
  unfold encrypt_block. rewrite Hb, Hload. cbn [Nat.eqb negb bind].
  rewrite (for_each_pure _ _ (fun i => round_value (nth (Z.to_nat i) rks 0))).
  - cbn [bind ret]. rewrite (fold_left_keys round_value), keys_forward by assumption.
    reflexivity.
  - intros i s Hi%in_range. apply round_step_usable; assumption.
Qed.

Lemma is_bytes_app (a b : bytes) :
  is_bytes (a ++ b) = is_bytes a && is_bytes b.
Proof. unfold is_bytes. apply forallb_app. Qed.

Lemma int_from_bytes_snoc (b : bytes) (x : Z) :
  int_from_bytes (b ++ [x]) = int_from_bytes b * 256 + x.
Proof. unfold int_from_bytes. rewrite fold_left_app. reflexivity. Qed.

Lemma int_from_bytes_range (b : bytes) :
  is_bytes b = true -> 0 <= int_from_bytes b < 256 ^ Z.of_nat (length b).
Proof.
  induction b as [|x b IH] using rev_ind; intros Hb.
  - cbn. lia.
  - rewrite is_bytes_app in Hb. apply andb_prop in Hb. destruct Hb as [Hb Hx].
    unfold is_bytes in Hx. cbn [forallb] in Hx.
    rewrite andb_true_r in Hx. apply andb_prop in Hx.
    destruct Hx as [Hx0%Z.leb_le Hx1%Z.ltb_lt].
    specialize (IH Hb).
    rewrite int_from_bytes_snoc, length_app. cbn [length].
    replace (Z.of_nat (length b + 1)) with (Z.of_nat (length b) + 1) by lia.
    rewrite Z.pow_add_r by lia. change (256 ^ 1) with 256. nia.
Qed.

(** ** GHASH never overflows its 16 bytes *)

Lemma galois_step_range (x h y i : Z) :
  0 <= h < 2 ^ 128 -> 0 <= y < 2 ^ 128 ->
  0 <= SM4GCM.galois_step x h y i < 2 ^ 128.
Proof.
  intros Hh Hy. unfold SM4GCM.galois_step. cbv zeta.
  set (p := Z.lor 0x87 (Z.shiftl 1 128)).
  set (y1 := Z.shiftl y 1).
  assert (H1 : 0 <= y1 < 2 ^ 129).
  { unfold y1. rewrite Z.shiftl_mul_pow2 by lia.
    change (2 ^ 129) with (2 ^ 128 * 2 ^ 1). lia. }
  set (y2 := if negb (Z.land (Z.shiftr x i) 1 =? 0) then Z.lxor y1 h else y1).
  assert (H2 : 0 <= y2 < 2 ^ 129).
  { unfold y2. destruct (negb _); [|assumption].
    apply lxor_range; [lia|assumption|]. change (2 ^ 129) with (2 ^ 128 * 2). lia. }
  destruct (Z.eqb_spec (Z.shiftr y2 128) 0) as [Hz|Hnz]; cbn [negb].
  - rewrite Z.shiftr_div_pow2 in Hz by lia.
    split; [lia|]. apply Z.div_small_iff in Hz; lia.
  - assert (Hbig : 2 ^ 128 <= y2).
    { destruct (Z.lt_ge_cases y2 (2 ^ 128)) as [Hlt|Hge]; [|assumption].
      exfalso. apply Hnz. rewrite Z.shiftr_div_pow2 by lia. apply Z.div_small. lia. }
    assert (Hlog : Z.log2 y2 = 128).
    { apply Z.log2_unique; [lia|]. change (2 ^ (128 + 1)) with (2 ^ 129). lia. }
    apply range_of_bits; [lia|apply Z.lxor_nonneg; unfold p; cbn; lia|].
    intros j Hj. rewrite Z.lxor_spec.
    destruct (Z.eq_dec j 128) as [->|Hne].
    + rewrite <- Hlog at 1. rewrite Z.bit_log2 by lia. reflexivity.
    + rewrite (testbit_high y2 129 j), (testbit_high p 129 j) by (unfold p; cbn; lia).
      reflexivity.
Qed.

Lemma galois_multiply_range (x h : Z) :
  0 <= h < 2 ^ 128 -> 0 <= SM4GCM._galois_multiply x h < 2 ^ 128.
Proof.
  intros Hh. unfold SM4GCM._galois_multiply.
  assert (Hfold : forall items y, 0 <= y < 2 ^ 128 ->
            0 <= fold_left (SM4GCM.galois_step x h) items y < 2 ^ 128).
  { induction items as [|i items IH]; intros y Hy; cbn [fold_left]; [assumption|].
    apply IH. apply galois_step_range; assumption. }
  apply Hfold. lia.
Qed.

(** With a well-formed 16-byte hash subkey [_ghash] returns, whatever the
    data. *)
Lemma ghash_returns (a c h : bytes) :
  length h = 16%nat -> is_bytes h = true ->
  exists g, SM4GCM._ghash a c h = inr g.
Proof.
  intros Hlen Hb. pose proof (int_from_bytes_range h Hb) as Hh.
  rewrite Hlen in Hh. change (256 ^ Z.of_nat 16) with (2 ^ 128) in Hh.
  unfold SM4GCM._ghash. cbv zeta.
  rewrite fold_left_app. cbn [fold_left].
  match goal with
  | |- context [SM4GCM._galois_multiply ?x ?hh] =>
      pose proof (galois_multiply_range x hh Hh) as Hy;
      generalize dependent (SM4GCM._galois_multiply x hh); intros y Hy
  end.
  unfold int_to_bytes. change (256 ^ Z.of_nat 16) with (2 ^ 128).
  destruct (Z.leb_spec 0 y) as [_|?]; [|lia].
  destruct (Z.ltb_spec y (2 ^ 128)) as [_|?]; [|lia].
  eexists. reflexivity.
Qed.

(** ** The CTR loop and [encrypt] on a usable session *)

Lemma keystream_usable (self : SM4GCM_obj) (m : nat) (c : bytes) :
  usable_cipher (sm4 self) ->
  length c = 16%nat -> is_bytes c = true ->
  int_from_bytes (slice c 12 16) + Z.of_nat m <= 0xFFFFFFFF ->
  exists K c', keystream self c m = inr (K, c').
Proof.
  intros Hu. revert c. induction m as [|m IH]; intros c Hlen Hb Hlow; cbn [keystream].
  - exists [], c. reflexivity.
  - destruct (encrypt_block_usable (sm4 self) c Hu Hlen) as (ks & -> & _ & _).
    cbn [bind].
    destruct (increment_counter_step c Hlen Hb) as (c1 & -> & Hlen1 & Hb1 & _ & Hlow1); [lia|].
    cbn [bind].
    destruct (IH c1 Hlen1 Hb1) as (K & c' & ->); [lia|].
    cbn [bind ret fst snd]. eexists. eexists. reflexivity.
Qed.

Lemma encrypt_returns (self : SM4GCM_obj) (plaintext auth_data : bytes) :
  usable_session self (length plaintext) ->
  exists ciphertext tag,
    snd (SM4GCM.encrypt self plaintext auth_data) = inr (ciphertext, tag).
Proof.
  intros (Hu & (ic & Hic & Hlen & Hb & Hlow) & (h & Hh & Hlh & Hbh)).
  destruct (keystream_usable self (blocks (length plaintext)) ic Hu Hlen Hb Hlow)
    as (K & c' & HK).
  destruct (ghash_returns auth_data (xor_bytes plaintext K) h Hlh Hbh) as (g & Hg).
  destruct (encrypt_block_usable (sm4 self) ic Hu Hlen) as (mask & Hmask & _ & _).
  unfold SM4GCM.encrypt. cbv zeta.
  rewrite mbind_snd, ctr_loop_snd, Hic. cbn [getattr bind].
  unfold blocks in HK. rewrite HK. cbn [bind ret fst].
  rewrite mbind_snd, Hh. cbn [lift snd getattr bind].
  rewrite mbind_snd. cbn [lift snd]. rewrite Hg. cbn [bind].
  rewrite mbind_snd. cbn [lift snd getattr bind].
  rewrite mbind_snd, cipher_call_snd. cbn [snd]. rewrite Hmask. cbn [bind mret snd].
  eexists. eexists. reflexivity.
Qed.

(** On every usable session state with the default tag length, [encrypt]
    returns a ciphertext and a tag, and [decrypt] on them with the same
    associated data returns the plaintext. *)
Theorem decrypt_encrypt_on_session (self : SM4GCM_obj) (plaintext auth_data : bytes) :
  usable_session self (length plaintext) -> tag_length self = 16 ->
  exists ciphertext tag,
    snd (SM4GCM.encrypt self plaintext auth_data) = inr (ciphertext, tag) /\
    length ciphertext = length plaintext /\
    snd (SM4GCM.decrypt self ciphertext tag auth_data) = inr plaintext.
Proof.
  intros Hu Htl.
  destruct (encrypt_returns self plaintext auth_data Hu) as (ct & tag & Henc).
  exists ct, tag. split; [assumption|].
  pose proof (decrypt_after_encrypt self plaintext auth_data ct tag Htl Henc) as Hdec.
  split; [|assumption].
  rewrite <- (ctr_output_length self plaintext ct); [reflexivity|].
  unfold SM4GCM.encrypt in Henc. cbv zeta in Henc. rewrite mbind_snd in Henc.
  destruct (snd (SM4GCM.ctr_loop self plaintext)) as [e|ct'] eqn:Hloop;
    cbn [bind] in Henc; [discriminate Henc|].
  f_equal. clear Hdec Hloop.
  repeat (rewrite mbind_snd in Henc;
          match type of Henc with
          | bind ?m _ = _ => destruct m; cbn [bind] in Henc; [discriminate Henc|]
          end).
  cbn [mret snd] in Henc. congruence.
Qed.

Lemma sample_session_usable : usable_session sample_session (length sample_plaintext).
Proof.
  split; [|split].
  - split.
    + exists sample_round_keys. split; reflexivity.
    + right. vm_compute. reflexivity.
  - eexists. split; [reflexivity|]. repeat split; vm_compute; congruence.
  - eexists. split; [vm_compute; reflexivity|]. split; reflexivity.
Defined.

Lemma decrypt_encrypt_on_session_witness :
  exists ciphertext tag,
    snd (SM4GCM.encrypt sample_session sample_plaintext sample_auth_data)
    = inr (ciphertext, tag) /\
    length ciphertext = length sample_plaintext /\
    snd (SM4GCM.decrypt sample_session ciphertext tag sample_auth_data)
    = inr sample_plaintext.
Proof.
  apply (decrypt_encrypt_on_session sample_session sample_plaintext sample_auth_data).
  - exact sample_session_usable.
  - reflexivity.
Defined.

(** * What [encrypt] and [decrypt] compute *)

(** The facts behind a returned [(ciphertext, tag)]. *)
Lemma encrypt_inv (self : SM4GCM_obj) (plaintext auth_data ciphertext tag : bytes) :
  snd (SM4GCM.encrypt self plaintext auth_data) = inr (ciphertext, tag) ->
  exists ic K cfin h g mask,
    initial_counter self = Some ic /\
    keystream self ic (blocks (length plaintext)) = inr (K, cfin) /\
    ciphertext = xor_bytes plaintext K /\
    H self = Some h /\
    SM4GCM._ghash auth_data ciphertext h = inr g /\
    encrypt_block (sm4 self) ic = inr mask /\
    tag = slice_to (xor_bytes g mask) (tag_length self).
Proof.
  intros Henc. unfold SM4GCM.encrypt in Henc. cbv zeta in Henc.
  rewrite mbind_snd, ctr_loop_snd in Henc.
  destruct (initial_counter self) as [ic|] eqn:Hic; [|discriminate Henc].
  cbn [getattr bind] in Henc. fold (blocks (length plaintext)) in Henc.
  destruct (keystream self ic (blocks (length plaintext))) as [e|[K cfin]] eqn:HK;
    [discriminate Henc|].
  cbn [bind ret fst] in Henc.
  rewrite mbind_snd in Henc. cbn [lift snd] in Henc.
  destruct (H self) as [h|] eqn:Hh; [|discriminate Henc]. cbn [getattr bind] in Henc.
  rewrite mbind_snd in Henc. cbn [lift snd] in Henc.
  destruct (SM4GCM._ghash auth_data (xor_bytes plaintext K) h) as [e|g] eqn:Hg;
    [discriminate Henc|].
  cbn [bind] in Henc. rewrite mbind_snd in Henc. cbn [lift snd getattr bind] in Henc.
  rewrite mbind_snd, cipher_call_snd in Henc. cbn [snd] in Henc.
  destruct (encrypt_block (sm4 self) ic) as [e|mask] eqn:Hmask; [discriminate Henc|].
  cbn [bind mret snd] in Henc. injection Henc as <- <-.
  exists ic, K, cfin, h, g, mask. repeat split; assumption || reflexivity.
Qed.

(** The result of [decrypt], without its log. *)
Lemma decrypt_snd (self : SM4GCM_obj) (ciphertext tag auth_data : bytes) :
  snd (SM4GCM.decrypt self ciphertext tag auth_data) =
  if negb (Z.of_nat (length tag) =? tag_length self)
  then inl (ValueError TagLength)
  else
    ic <- getattr "initial_counter" (initial_counter self);;
    mask <- encrypt_block (sm4 self) ic;;
    h <- getattr "H" (H self);;
    g <- SM4GCM._ghash auth_data ciphertext h;;
    if negb (SM4GCM._constant_time_compare (padded_tag (xor_bytes tag mask)) g)
    then inl (ValueError AuthFailed)
    else snd (SM4GCM.ctr_loop self ciphertext).
Proof.
  unfold SM4GCM.decrypt.
  destruct (negb (Z.of_nat (length tag) =? tag_length self)); [reflexivity|].
  rewrite mbind_snd. cbn [lift snd].
  destruct (getattr "initial_counter" (initial_counter self)) as [e|ic]; cbn [bind];
    [reflexivity|].
  rewrite mbind_snd, cipher_call_snd. cbn [snd].
  destruct (encrypt_block (sm4 self) ic) as [e|mask]; cbn [bind]; [reflexivity|].
  rewrite mbind_snd. cbn [lift snd].
  destruct (getattr "H" (H self)) as [e|h]; cbn [bind]; [reflexivity|].
  rewrite mbind_snd. cbn [lift snd].
  destruct (SM4GCM._ghash auth_data ciphertext h) as [e|g]; cbn [bind]; [reflexivity|].
  rewrite mbind_snd. cbn [emit snd bind]. unfold padded_tag.
  destruct (negb _); reflexivity.
Qed.

(** * Tags: what [decrypt] accepts *)

Lemma ctr_loop_decrypts (self : SM4GCM_obj) (plaintext ic K cfin : bytes) :
  initial_counter self = Some ic ->
  keystream self ic (blocks (length plaintext)) = inr (K, cfin) ->
  snd (SM4GCM.ctr_loop self (xor_bytes plaintext K)) = inr plaintext.
Proof.
  intros Hic HK.
  pose proof (keystream_length _ _ _ _ _ HK) as HlenK.
  pose proof (blocks_cover (length plaintext)) as Hcover. unfold blocks in *.
  rewrite ctr_loop_snd, Hic. cbn [getattr bind].
  rewrite xor_bytes_length.
  replace (Nat.min (length plaintext) (length K)) with (length plaintext) by lia.
  rewrite HK. cbn [bind ret fst]. rewrite xor_bytes_cancel by lia. reflexivity.
Qed.

Lemma xor_bytes_inj (a b m : bytes) :
  length a = length b -> (length a <= length m)%nat ->
  xor_bytes a m = xor_bytes b m -> a = b.
Proof.
  intros Hab Hm Heq.
  rewrite <- (xor_bytes_cancel a m), <- (xor_bytes_cancel b m) by lia.
  rewrite Heq. reflexivity.
Qed.

Lemma slice_to_all {A} (l : list A) (n : Z) :
  Z.of_nat (length l) <= n -> slice_to l n = l.
Proof.
  intros Hn. unfold slice_to.
  destruct (Z.ltb_spec n 0) as [?|_]; [lia|]. apply firstn_all2. lia.
Qed.

(** After [encrypt] with the default tag length, [decrypt] refuses every
    other 16-byte tag with the authentication failure. *)
Theorem decrypt_rejects_other_tag
  (self : SM4GCM_obj) (plaintext auth_data ciphertext tag tag' : bytes) :
  tag_length self = 16 ->
  snd (SM4GCM.encrypt self plaintext auth_data) = inr (ciphertext, tag) ->
  length tag' = 16%nat -> tag' <> tag ->
  snd (SM4GCM.decrypt self ciphertext tag' auth_data) = inl (ValueError AuthFailed).
Proof.
  intros Htl Henc Hlen Hneq.
  destruct (encrypt_inv _ _ _ _ _ Henc)
    as (ic & K & cfin & h & g & mask & Hic & HK & -> & Hh & Hg & Hmask & ->).
  pose proof (ghash_length _ _ _ _ Hg) as Hlg.
  pose proof (encrypt_block_length _ _ _ Hmask) as Hlm.
  rewrite decrypt_snd, Hlen, Htl, Hic, Hh. change (Z.of_nat 16 =? 16) with true.
  cbn [negb getattr bind]. rewrite Hmask. cbn [bind]. rewrite Hg. cbn [bind].
  destruct (SM4GCM._constant_time_compare (padded_tag (xor_bytes tag' mask)) g) eqn:Hcmp;
    [|reflexivity].
  exfalso. apply Hneq. apply constant_time_compare_eq in Hcmp.
  unfold padded_tag in Hcmp. rewrite xor_bytes_length, Hlen, Hlm in Hcmp.
  cbn [Nat.min Nat.ltb Nat.leb] in Hcmp.
  rewrite slice_to_all by (rewrite xor_bytes_length, Hlg, Hlm, Htl; cbn; lia).
  rewrite <- Hcmp. symmetry. apply xor_bytes_cancel. lia.
Qed.

Lemma decrypt_rejects_other_tag_witness :
  snd (SM4GCM.decrypt sample_session sample_ciphertext (repeat 0 16%nat) sample_auth_data)
  = inl (ValueError AuthFailed).
Proof.
  apply (decrypt_rejects_other_tag sample_session sample_plaintext sample_auth_data
           sample_ciphertext sample_tag (repeat 0 16%nat)).
  - reflexivity.
  - vm_compute. reflexivity.
  - reflexivity.
  - discriminate.
Defined.

(** With a tag length above 16 or below 0, [decrypt] refuses the very tag
    [encrypt] returned, with the tag-length error: [encrypt] cannot return a
    tag of that length. *)
Theorem decrypt_refuses_own_tag_length
  (self : SM4GCM_obj) (plaintext auth_data ciphertext tag : bytes) :
  tag_length self < 0 \/ 16 < tag_length self ->
  snd (SM4GCM.encrypt self plaintext auth_data) = inr (ciphertext, tag) ->
  SM4GCM.decrypt self ciphertext tag auth_data = ([], inl (ValueError TagLength)).
Proof.
  intros Htl Henc.
  destruct (encrypt_inv _ _ _ _ _ Henc)
    as (ic & K & cfin & h & g & mask & Hic & HK & -> & Hh & Hg & Hmask & ->).
  pose proof (ghash_length _ _ _ _ Hg) as Hlg.
  pose proof (encrypt_block_length _ _ _ Hmask) as Hlm.
  assert (Hlx : length (xor_bytes g mask) = 16%nat) by (rewrite xor_bytes_length; lia).
  unfold SM4GCM.decrypt.
  replace (Z.of_nat (length (slice_to (xor_bytes g mask) (tag_length self)))
           =? tag_length self) with false; [reflexivity|].
  symmetry. apply Z.eqb_neq. unfold slice_to.
  destruct (Z.ltb_spec (tag_length self) 0) as [Hneg|Hpos].
  - lia.
  - rewrite length_firstn. lia.
Qed.

Lemma decrypt_refuses_own_tag_length_witness :
  SM4GCM.decrypt (sample_session_with 32) sample_ciphertext sample_tag sample_auth_data
  = ([], inl (ValueError TagLength)).
Proof.
  apply (decrypt_refuses_own_tag_length (sample_session_with 32)
           sample_plaintext sample_auth_data sample_ciphertext sample_tag).
  - right. reflexivity.
  - vm_compute. reflexivity.
Defined.

Lemma xor_bytes_firstn (n : nat) (a b : bytes) :
  xor_bytes (firstn n a) b = firstn n (xor_bytes a b).
Proof.
  unfold xor_bytes. revert a b. induction n as [|n IH]; intros a b; [reflexivity|].
  destruct a as [|x a]; [reflexivity|]. destruct b as [|y b]; [reflexivity|].
  cbn [firstn combine map]. rewrite IH. reflexivity.
Qed.

Lemma firstn_xor_cancel (n : nat) (g m : bytes) :
  (length g <= length m)%nat ->
  xor_bytes (firstn n (xor_bytes g m)) m = firstn n g.
Proof.
  intros Hlen. rewrite xor_bytes_firstn, xor_bytes_cancel by lia. reflexivity.
Qed.

Lemma all_zero_repeat (l : bytes) :
  all_zero l = true <-> l = repeat 0 (length l).
Proof.
  unfold all_zero. induction l as [|x l IH]; cbn [forallb length repeat].
  - split; reflexivity.
  - rewrite andb_true_iff, IH, Z.eqb_eq. split.
    + intros [-> <-]. reflexivity.
    + intros [= -> Hl]. split; [reflexivity|assumption].
Qed.

(** Comparing a truncated, zero-padded value with the full one. *)
Lemma compare_padded_prefix (n : nat) (g : bytes) :
  length g = 16%nat -> (n < 16)%nat ->
  SM4GCM._constant_time_compare (padded_tag (firstn n g)) g = all_zero (skipn n g).
Proof.
  intros Hlg Hn. unfold padded_tag.
  rewrite length_firstn, Hlg. replace (Nat.min n 16) with n by lia.
  destruct (Nat.ltb_spec n 16) as [_|?]; [|lia].
  apply eq_true_iff_eq. rewrite all_zero_repeat, length_skipn, Hlg. split.
  - intros Heq%constant_time_compare_eq.
    rewrite <- (firstn_skipn n g) in Heq at 2.
    apply app_inv_head in Heq. symmetry. assumption.
  - intros Hz. rewrite <- Hz, firstn_skipn. apply constant_time_compare_refl.
Qed.

(** With a tag length [t] from 0 to 15, [encrypt] returns the first [t]
    bytes of the masked GHASH value, and [decrypt] on that result returns the
    plaintext only when the other [16 - t] bytes of the GHASH value are all
    zero; otherwise it raises the authentication failure, because it pads
    the unmasked tag with zeros and compares it with all 16 bytes. *)
Theorem decrypt_of_truncated_tag
  (self : SM4GCM_obj) (plaintext auth_data ciphertext tag h g : bytes) :
  0 <= tag_length self < 16 ->
  snd (SM4GCM.encrypt self plaintext auth_data) = inr (ciphertext, tag) ->
  H self = Some h -> SM4GCM._ghash auth_data ciphertext h = inr g ->
  Z.of_nat (length tag) = tag_length self /\
  snd (SM4GCM.decrypt self ciphertext tag auth_data)
  = if all_zero (skipn (Z.to_nat (tag_length self)) g)
    then inr plaintext
    else inl (ValueError AuthFailed).
Proof.
  intros Htl Henc Hh Hg.
  destruct (encrypt_inv _ _ _ _ _ Henc)
    as (ic & K & cfin & h' & g' & mask & Hic & HK & -> & Hh' & Hg' & Hmask & ->).
  rewrite Hh in Hh'. injection Hh' as <-. rewrite Hg in Hg'. injection Hg' as <-.
  pose proof (ghash_length _ _ _ _ Hg) as Hlg.
  pose proof (encrypt_block_length _ _ _ Hmask) as Hlm.
  assert (Hslice : slice_to (xor_bytes g mask) (tag_length self)
                   = firstn (Z.to_nat (tag_length self)) (xor_bytes g mask)).
  { unfold slice_to. destruct (Z.ltb_spec (tag_length self) 0); [lia|reflexivity]. }
  rewrite Hslice.
  assert (Hlt : Z.of_nat (length (firstn (Z.to_nat (tag_length self)) (xor_bytes g mask)))
                = tag_length self).
  { rewrite length_firstn, xor_bytes_length, Hlg, Hlm. lia. }
  split; [assumption|].
  rewrite decrypt_snd, Hlt, Z.eqb_refl, Hic, Hh. cbn [negb getattr bind].
  rewrite Hmask. cbn [bind]. rewrite Hg. cbn [bind].
  rewrite firstn_xor_cancel by lia.
  rewrite compare_padded_prefix by (assumption || lia).
  destruct (all_zero _); cbn [negb]; [|reflexivity].
  apply (ctr_loop_decrypts self plaintext ic K cfin); assumption.
Qed.

Lemma decrypt_of_truncated_tag_witness :
  Z.of_nat (length (snd (encrypted (sample_session_with 8) sample_plaintext sample_auth_data)))
  = tag_length (sample_session_with 8) /\
  snd (SM4GCM.decrypt (sample_session_with 8) sample_ciphertext
         (snd (encrypted (sample_session_with 8) sample_plaintext sample_auth_data))
         sample_auth_data)
  = if all_zero (skipn (Z.to_nat (tag_length (sample_session_with 8))) sample_ghash)
    then inr sample_plaintext
    else inl (ValueError AuthFailed).
Proof.
  apply (decrypt_of_truncated_tag (sample_session_with 8) sample_plaintext sample_auth_data
           sample_ciphertext
           (snd (encrypted (sample_session_with 8) sample_plaintext sample_auth_data))
           sample_H sample_ghash).
  - cbn. lia.
  - vm_compute. reflexivity.
  - vm_compute. reflexivity.
  - vm_compute. reflexivity.
Defined.

(** * Reuse of the keystream *)

Lemma xor_bytes_same_mask (a b m : bytes) :
  length a = length b -> (length a <= length m)%nat ->
  xor_bytes (xor_bytes a m) (xor_bytes b m) = xor_bytes a b.
Proof.
  unfold xor_bytes. revert b m. induction a as [|x a IH]; intros b m Hab Hm.
  - reflexivity.
  - destruct b as [|y b]; [discriminate Hab|].
    destruct m as [|k m]; [cbn [length] in Hm; lia|].
    cbn [combine map fst snd]. cbn [length] in Hab, Hm.
    rewrite IH by lia. f_equal.
    apply Z.bits_inj'. intros i Hi. rewrite !Z.lxor_spec. btauto.
Qed.

(** Two messages of the same length encrypted on one session are XORed
    with the same keystream: the XOR of the two ciphertexts is the XOR of the
    two plaintexts, whatever the associated data. *)
Theorem ciphertexts_share_keystream
  (self : SM4GCM_obj) (p1 a1 c1 t1 p2 a2 c2 t2 : bytes) :
  length p1 = length p2 ->
  snd (SM4GCM.encrypt self p1 a1) = inr (c1, t1) ->
  snd (SM4GCM.encrypt self p2 a2) = inr (c2, t2) ->
  xor_bytes c1 c2 = xor_bytes p1 p2.
Proof.
  intros Hlen Henc1 Henc2.
  destruct (encrypt_inv _ _ _ _ _ Henc1)
    as (ic & K & cfin & _ & _ & _ & Hic & HK & -> & _).
  destruct (encrypt_inv _ _ _ _ _ Henc2)
    as (ic' & K' & cfin' & _ & _ & _ & Hic' & HK' & -> & _).
  rewrite Hic in Hic'. injection Hic' as <-.
  rewrite <- Hlen, HK in HK'. injection HK' as <- <-.
  pose proof (keystream_length _ _ _ _ _ HK) as HlenK.
  pose proof (blocks_cover (length p1)) as Hcover. unfold blocks in *.
  apply xor_bytes_same_mask; [assumption|lia].
Qed.

Lemma ciphertexts_share_keystream_witness :
  xor_bytes sample_ciphertext (fst (encrypted sample_session (repeat 0 22%nat) []))
  = xor_bytes sample_plaintext (repeat 0 22%nat).
Proof.
  apply (ciphertexts_share_keystream sample_session
           sample_plaintext sample_auth_data sample_ciphertext sample_tag
           (repeat 0 22%nat) []
           (fst (encrypted sample_session (repeat 0 22%nat) []))
           (snd (encrypted sample_session (repeat 0 22%nat) []))).
  - reflexivity.
  - vm_compute. reflexivity.
  - vm_compute. reflexivity.
Defined.

(** * The empty message *)

Lemma galois_multiply_zero (h : Z) : SM4GCM._galois_multiply 0 h = 0.
Proof.
  unfold SM4GCM._galois_multiply.
  assert (Hfold : forall items, fold_left (SM4GCM.galois_step 0 h) items 0 = 0).
  { induction items as [|i items IH]; cbn [fold_left]; [reflexivity|].
    replace (SM4GCM.galois_step 0 h 0 i) with 0; [apply IH|].
    unfold SM4GCM.galois_step. cbv zeta. rewrite Z.shiftr_0_l. reflexivity. }
  apply Hfold.
Qed.

Lemma xor_bytes_zeros (m : bytes) (n : nat) :
  (length m <= n)%nat -> xor_bytes (repeat 0 n) m = m.
Proof.
  unfold xor_bytes. revert n. induction m as [|x m IH]; intros n Hn.
  - destruct n; reflexivity.
  - destruct n as [|n]; [cbn [length] in Hn; lia|].
    cbn [repeat combine map fst snd]. rewrite IH by (cbn [length] in Hn; lia).
    rewrite Z.lxor_0_l. reflexivity.
Qed.

Lemma ghash_empty (h : bytes) : SM4GCM._ghash [] [] h = inr (repeat 0 16%nat).
Proof.
  change (SM4GCM._ghash [] [] h)
    with (int_to_bytes (SM4GCM._galois_multiply 0 (int_from_bytes h)) 16).
  rewrite galois_multiply_zero. reflexivity.
Qed.

(** With no plaintext and no associated data the GHASH value is zero, so
    the tag [encrypt] returns (default tag length) is
    [encrypt_block(initial_counter)] itself: the block with which the CTR
    loop masks the first 16 bytes of any message of the session. *)
Theorem empty_message_tag_is_first_keystream_block
  (self : SM4GCM_obj) (ciphertext tag : bytes) :
  tag_length self = 16 ->
  snd (SM4GCM.encrypt self [] []) = inr (ciphertext, tag) ->
  ciphertext = [] /\
  exists ic, initial_counter self = Some ic /\ encrypt_block (sm4 self) ic = inr tag.
Proof.
  intros Htl Henc.
  destruct (encrypt_inv _ _ _ _ _ Henc)
    as (ic & K & cfin & h & g & mask & Hic & HK & -> & Hh & Hg & Hmask & ->).
  cbn [length blocks keystream] in HK. change (blocks 0) with 0%nat in HK.
  cbn [keystream] in HK. injection HK as <- <-.
  split; [reflexivity|]. exists ic. split; [assumption|].
  pose proof (encrypt_block_length _ _ _ Hmask) as Hlm.
  rewrite ghash_empty in Hg.
  assert (Hgz : g = repeat 0 16%nat) by congruence. subst g. clear Hg.
  rewrite xor_bytes_zeros by lia.
  rewrite slice_to_all by (rewrite Hlm, Htl; cbn; lia). assumption.
Qed.

Lemma empty_message_tag_is_first_keystream_block_witness :
  fst (encrypted sample_session [] []) = [] /\
  exists ic, initial_counter sample_session = Some ic /\
             encrypt_block (sm4 sample_session) ic
             = inr (snd (encrypted sample_session [] [])).
Proof.
  apply (empty_message_tag_is_first_keystream_block sample_session
           (fst (encrypted sample_session [] []))
           (snd (encrypted sample_session [] []))).
  - reflexivity.
  - vm_compute. reflexivity.
Defined.

(** * More on the block cipher *)

(** On [SM4(key)], [encrypt_block] undoes [decrypt_block] as well: for every
    16-byte block, [decrypt_block] returns and [encrypt_block] on what it
    returns gives the block back.  With the opposite composition this makes
    both operations bijections on the 16-byte blocks. *)
Theorem encrypt_block_decrypt_block (k block : bytes) :
  length k = 16%nat -> length block = 16%nat -> is_bytes block = true ->
  exists self pt,
    new_SM4 k = inr self /\
    decrypt_block self block = inr pt /\
    encrypt_block self pt = inr block.
Proof.
  intros Hk Hlen Hb.
  destruct (new_SM4_ok k Hk) as (rks & Hnew & Hrks).
  destruct (load_words_bytes block Hlen Hb) as (X & Hload & HX).
  exists (mk_SM4 Basic k (Some rks) None), (store_words (rounds (rev rks) X)).
  split; [assumption|]. split.
  - apply (decrypt_block_basic (mk_SM4 Basic k (Some rks) None) rks); auto.
  - assert (HE : words32 (rounds (rev rks) X)) by (apply rounds_words32; assumption).
    rewrite (encrypt_block_basic (mk_SM4 Basic k (Some rks) None) rks
               eq_refl eq_refl Hrks _ (rev_words (rounds (rev rks) X))).
    + rewrite <- (rev_involutive rks) at 1. rewrite rounds_undo.
      f_equal. apply store_load; assumption.
    + destruct (rounds (rev rks) X) as [[[e0 e1] e2] e3]. reflexivity.
    + apply load_store. assumption.
Qed.

Lemma encrypt_block_decrypt_block_witness :
  exists self pt,
    new_SM4 key_2 = inr self /\
    decrypt_block self cipher_2 = inr pt /\
    encrypt_block self pt = inr cipher_2.
Proof.
  apply (encrypt_block_decrypt_block key_2 cipher_2); reflexivity.
Defined.

Lemma key_schedule_value_words (i : Z) (st : words * list Z) :
  words32 (fst st) /\ Forall word32 (snd st) ->
  words32 (fst (key_schedule_value i st)) /\ Forall word32 (snd (key_schedule_value i st)).
Proof.
  destruct st as [[[[k0 k1] k2] k3] rks]. cbn [fst snd key_schedule_value].
  unfold words32. intros [(H0 & H1 & H2 & H3) Hrks].
  assert (Hrk : word32 (Z.lxor k0 (t_value (Z.lxor (Z.lxor (Z.lxor k1 k2) k3)
                                        (nth (Z.to_nat i) SM4.CK 0))))).
  { unfold word32 in *. apply lxor_range; [lia|assumption|apply t_value_range]. }
  split; [auto|]. apply Forall_app. split; [assumption|]. constructor; [assumption|constructor].
Qed.

Lemma key_schedule_words (items : list Z) (st : words * list Z) :
  words32 (fst st) /\ Forall word32 (snd st) ->
  Forall word32 (snd (fold_left (fun s i => key_schedule_value i s) items st)).
Proof.
  revert st. induction items as [|i items IH]; intros st Hst; cbn [fold_left].
  - apply Hst.
  - apply IH. apply key_schedule_value_words. assumption.
Qed.

(** Every round key [SM4(key)] holds is a 32-bit word: the key schedule
    XORs 32-bit words with values of the round transform, which are masked
    to 32 bits. *)
Theorem round_keys_are_words (k : bytes) :
  length k = 16%nat -> is_bytes k = true ->
  exists self rks,
    new_SM4 k = inr self /\ round_keys self = Some rks /\
    forall rk, In rk rks -> 0 <= rk < 2 ^ 32.
Proof.
  intros Hlen Hb.
  destruct (load_words_bytes k Hlen Hb) as ([[[k0 k1] k2] k3] & Hload & H0 & H1 & H2 & H3).
  unfold new_SM4, SM4__init__. rewrite Hlen. cbn [Nat.eqb negb].
  unfold _generate_round_keys. cbn [key]. rewrite Hload. cbn [bind].
  change (getitem SM4.FK 0) with (@inr exn _ 0xA3B1BAC6).
  change (getitem SM4.FK 1) with (@inr exn _ 0x56AA3350).
  change (getitem SM4.FK 2) with (@inr exn _ 0x677D9197).
  change (getitem SM4.FK 3) with (@inr exn _ 0xB27022DC).
  cbn [bind].
  rewrite (for_each_pure _ _ key_schedule_value).
  - cbn [bind ret T_table]. eexists. eexists. split; [reflexivity|].
    cbn [round_keys]. split; [reflexivity|].
    apply Forall_forall. apply key_schedule_words. cbn [fst snd].
    split; [|constructor]. unfold word32 in *.
    repeat split; try (apply Z.lxor_nonneg; lia); apply lxor_range; cbn; lia.
  - intros i s Hi%in_range. apply key_schedule_step_basic; [reflexivity|lia].
Qed.

Lemma round_keys_are_words_witness :
  exists self rks,
    new_SM4 key_1 = inr self /\ round_keys self = Some rks /\
    forall rk, In rk rks -> 0 <= rk < 2 ^ 32.
Proof.
  apply (round_keys_are_words key_1); reflexivity.
Defined.

(** [_rotate_left] is a rotation of the 32 bits: bit [i] of the result is
    bit [i - n] of the argument, the position taken modulo 32. *)
Theorem rotate_left_is_rotation (x n i : Z) :
  0 <= x < 2 ^ 32 -> 0 <= n <= 32 -> 0 <= i < 32 ->
  Z.testbit (SM4._rotate_left x n) i = Z.testbit x ((i - n) mod 32).
Proof.
  intros Hx Hn Hi. rewrite rotate_left_bits by lia.
  destruct (Z.ltb_spec i 32) as [_|?]; [|lia]. cbn [andb].
  destruct (Z.ltb_spec i n) as [Hlt|Hge]; f_equal.
  - apply (Z.mod_unique _ _ (-1)); lia.
  - apply (Z.mod_unique _ _ 0); lia.
Qed.

Lemma rotate_left_is_rotation_witness :
  Z.testbit (SM4._rotate_left 0x80000001 13) 12 = Z.testbit 0x80000001 ((12 - 13) mod 32).
Proof.
  apply (rotate_left_is_rotation 0x80000001 13 12); cbn; lia.
Defined.

(** * More on GHASH *)

Lemma be_digits_bytes (n : nat) (x : Z) : is_bytes (be_digits n x) = true.
Proof.
  revert x. induction n as [|n IH]; intros x; cbn [be_digits]; [reflexivity|].
  rewrite is_bytes_app, IH. unfold is_bytes. cbn [forallb andb].
  pose proof (Z.mod_pos_bound x 256 ltac:(lia)) as Hm.
  rewrite andb_true_r. apply andb_true_intro.
  split; [apply Z.leb_le | apply Z.ltb_lt]; lia.
Qed.

(** With a 16-byte hash subkey [_ghash] returns 16 well-formed bytes,
    whatever the associated data and the ciphertext and however long they
    are: the value it folds stays below [2^128], so the final
    [to_bytes(16)] never overflows. *)
Theorem ghash_returns_16_bytes (a c h : bytes) :
  length h = 16%nat -> is_bytes h = true ->
  exists g, SM4GCM._ghash a c h = inr g /\ length g = 16%nat /\ is_bytes g = true.
Proof.
  intros Hlen Hb. destruct (ghash_returns a c h Hlen Hb) as (g & Hg).
  exists g. split; [assumption|]. split; [apply (ghash_length a c h g Hg)|].
  unfold SM4GCM._ghash, int_to_bytes in Hg. cbv zeta in Hg.
  destruct (_ && _) in Hg; [|discriminate Hg].
  assert (Heq : forall y, @inr exn bytes (be_digits 16 y) = inr g -> is_bytes g = true).
  { intros y Hy. assert (Hgy : g = be_digits 16 y) by congruence.
    rewrite Hgy. apply be_digits_bytes. }
  eapply Heq. exact Hg.
Qed.

Lemma ghash_returns_16_bytes_witness :
  exists g, SM4GCM._ghash sample_auth_data sample_ciphertext sample_H = inr g /\
            length g = 16%nat /\ is_bytes g = true.
Proof.
  apply (ghash_returns_16_bytes sample_auth_data sample_ciphertext sample_H); reflexivity.
Defined.

Lemma low_bit_test (x i : Z) :
  0 <= i -> negb (Z.land (Z.shiftr x i) 1 =? 0) = Z.testbit x i.
Proof.
  intros Hi.
  replace (Z.testbit x i) with (Z.odd (Z.shiftr x i))
    by (rewrite <- Z.bit0_odd, Z.shiftr_spec by lia; reflexivity).
  change (Z.land (Z.shiftr x i) 1) with (Z.land (Z.shiftr x i) (Z.ones 1)).
  rewrite Z.land_ones by lia. change (2 ^ 1) with 2.
  rewrite Zmod_odd. destruct (Z.odd _); reflexivity.
Qed.

Lemma high_bit_test (v : Z) :
  0 <= v < 2 ^ 129 -> negb (Z.shiftr v 128 =? 0) = Z.testbit v 128.
Proof.
  intros Hv.
  replace (Z.testbit v 128) with (Z.odd (Z.shiftr v 128))
    by (rewrite <- Z.bit0_odd, Z.shiftr_spec by lia; reflexivity).
  rewrite Z.shiftr_div_pow2 by lia.
  assert (Hq : 0 <= v / 2 ^ 128 < 2).
  { split; [apply Z.div_pos; lia|].
    apply Z.div_lt_upper_bound; [lia|]. change (2 ^ 128 * 2) with (2 ^ 129). lia. }
  assert (Hc : v / 2 ^ 128 = 0 \/ v / 2 ^ 128 = 1) by lia.
  destruct Hc as [-> | ->]; reflexivity.
Qed.

(** One pass of the loop of [_galois_multiply], bit by bit. *)
Lemma galois_step_bits (x h y i : Z) :
  0 <= i -> 0 <= h < 2 ^ 128 -> 0 <= y < 2 ^ 128 ->
  SM4GCM.galois_step x h y i
  = Z.lxor (Z.lxor (Z.shiftl y 1) (if Z.testbit x i then h else 0))
           (if Z.testbit (Z.lxor (Z.shiftl y 1) (if Z.testbit x i then h else 0)) 128
            then Z.lor 0x87 (Z.shiftl 1 128) else 0).
Proof.
  intros Hi Hh Hy. unfold SM4GCM.galois_step. cbv zeta.
  rewrite low_bit_test by assumption.
  assert (H1 : 0 <= Z.shiftl y 1 < 2 ^ 129).
  { rewrite Z.shiftl_mul_pow2 by lia. change (2 ^ 129) with (2 ^ 128 * 2 ^ 1). lia. }
  assert (H2 : 0 <= Z.lxor (Z.shiftl y 1) (if Z.testbit x i then h else 0) < 2 ^ 129).
  { apply lxor_range; [lia|assumption|].
    change (2 ^ 129) with (2 ^ 128 * 2). destruct (Z.testbit x i); lia. }
  replace (if Z.testbit x i then Z.lxor (Z.shiftl y 1) h else Z.shiftl y 1)
    with (Z.lxor (Z.shiftl y 1) (if Z.testbit x i then h else 0))
    by (destruct (Z.testbit x i); [reflexivity|apply Z.lxor_0_r]).
  rewrite high_bit_test by assumption.
  destruct (Z.testbit _ 128); [reflexivity|symmetry; apply Z.lxor_0_r].
Qed.

Ltac lxor_bits :=
  apply Z.bits_inj'; intros ? ?; rewrite ?Z.lxor_spec, ?Z.testbit_0_l; btauto.

Lemma galois_step_lxor (x1 x2 h y1 y2 i : Z) :
  0 <= i -> 0 <= h < 2 ^ 128 -> 0 <= y1 < 2 ^ 128 -> 0 <= y2 < 2 ^ 128 ->
  SM4GCM.galois_step (Z.lxor x1 x2) h (Z.lxor y1 y2) i
  = Z.lxor (SM4GCM.galois_step x1 h y1 i) (SM4GCM.galois_step x2 h y2 i).
Proof.
  intros Hi Hh Hy1 Hy2.
  rewrite !galois_step_bits by (try apply lxor_range; assumption || lia).
  rewrite Z.lxor_spec, Z.shiftl_lxor.
  generalize (Z.lor 135 (Z.shiftl 1 128)). intros p.
  generalize (Z.shiftl y1 1) (Z.shiftl y2 1). intros s1 s2.
  assert (Hv : Z.lxor (Z.lxor s1 s2)
                 (if xorb (Z.testbit x1 i) (Z.testbit x2 i) then h else 0)
               = Z.lxor (Z.lxor s1 (if Z.testbit x1 i then h else 0))
                        (Z.lxor s2 (if Z.testbit x2 i then h else 0))).
  { destruct (Z.testbit x1 i), (Z.testbit x2 i); cbn [xorb]; lxor_bits. }
  rewrite Hv.
  generalize (Z.lxor s1 (if Z.testbit x1 i then h else 0))
             (Z.lxor s2 (if Z.testbit x2 i then h else 0)). intros v1 v2.
  rewrite Z.lxor_spec.
  destruct (Z.testbit v1 128), (Z.testbit v2 128); cbn [xorb]; lxor_bits.
Qed.

(** [_galois_multiply] distributes over XOR in its first argument, for
    every hash subkey below [2^128]: GHASH is linear in the blocks it
    absorbs. *)
Theorem galois_multiply_lxor (x1 x2 h : Z) :
  0 <= h < 2 ^ 128 ->
  SM4GCM._galois_multiply (Z.lxor x1 x2) h
  = Z.lxor (SM4GCM._galois_multiply x1 h) (SM4GCM._galois_multiply x2 h).
Proof.
  intros Hh. unfold SM4GCM._galois_multiply.
  assert (Hfold : forall items y1 y2,
            Forall (fun i => 0 <= i) items ->
            0 <= y1 < 2 ^ 128 -> 0 <= y2 < 2 ^ 128 ->
            fold_left (SM4GCM.galois_step (Z.lxor x1 x2) h) items (Z.lxor y1 y2)
            = Z.lxor (fold_left (SM4GCM.galois_step x1 h) items y1)
                     (fold_left (SM4GCM.galois_step x2 h) items y2)).
  { induction items as [|i items IH]; intros y1 y2 Hitems Hy1 Hy2; cbn [fold_left].
    - reflexivity.
    - inversion Hitems as [|? ? Hi Hrest]; subst.
      rewrite galois_step_lxor by assumption.
      apply IH; [assumption| |]; apply galois_step_range; assumption. }
  change 0 with (Z.lxor 0 0) at 1. apply Hfold; [|lia|lia].
  apply Forall_forall. intros i Hin%in_rev%in_range. lia.
Qed.

Lemma galois_multiply_lxor_witness :
  SM4GCM._galois_multiply (Z.lxor 0x1234567 (2 ^ 127 + 5)) (2 ^ 128 - 1)
  = Z.lxor (SM4GCM._galois_multiply 0x1234567 (2 ^ 128 - 1))
           (SM4GCM._galois_multiply (2 ^ 127 + 5) (2 ^ 128 - 1)).
Proof.
  apply (galois_multiply_lxor 0x1234567 (2 ^ 127 + 5) (2 ^ 128 - 1)). cbn. lia.
Defined.

(** * The order of what [encrypt] and [decrypt] do *)

(** [decrypt] appends a chunk to the plaintext only after the tag check has
    passed: whenever its log holds an output chunk, the log starts with the
    cipher call on the initial counter and the comparison of the unmasked,
    zero-padded tag with the GHASH value of this very ciphertext and
    associated data, and that comparison returned [True]. *)
Theorem decrypt_outputs_after_verification
  (self : SM4GCM_obj) (ciphertext tag auth_data chunk : bytes) :
  In (Output chunk) (fst (SM4GCM.decrypt self ciphertext tag auth_data)) ->
  exists ic mask h g rest,
    initial_counter self = Some ic /\
    encrypt_block (sm4 self) ic = inr mask /\
    H self = Some h /\
    SM4GCM._ghash auth_data ciphertext h = inr g /\
    SM4GCM._constant_time_compare (padded_tag (xor_bytes tag mask)) g = true /\
    fst (SM4GCM.decrypt self ciphertext tag auth_data)
    = EncryptBlock ic :: Compare (padded_tag (xor_bytes tag mask)) g :: rest.
Proof.
  unfold SM4GCM.decrypt.
  destruct (negb (Z.of_nat (length tag) =? tag_length self)); [intros []|].
  destruct (initial_counter self) as [ic|]; [|intros []].
  cbn [getattr]. rewrite mbind_lift. rewrite cipher_call_snd.
  destruct (encrypt_block (sm4 self) ic) as [e|mask] eqn:Hmask.
  { rewrite (mbind_raised _ _ e) by reflexivity. cbn [fst In].
    intros [Hin|[]]. discriminate Hin. }
  rewrite (mbind_ok _ _ mask) by reflexivity. cbn [fst snd].
  destruct (H self) as [h|].
  2:{ cbn [getattr lift mbind fst app In]. intros [Hin|[]]. discriminate Hin. }
  cbn [getattr]. rewrite mbind_lift.
  fold (padded_tag (xor_bytes tag mask)).
  destruct (SM4GCM._ghash auth_data ciphertext h) as [e|g] eqn:Hg.
  { cbn [lift mbind fst app In]. intros [Hin|[]]. discriminate Hin. }
  rewrite mbind_lift.
  rewrite (mbind_ok (emit (Compare (padded_tag (xor_bytes tag mask)) g)) _ tt)
    by reflexivity.
  cbn [emit fst snd app].
  destruct (SM4GCM._constant_time_compare (padded_tag (xor_bytes tag mask)) g) eqn:Hcmp;
    cbn [negb].
  - intros _. exists ic, mask, h, g, (fst (SM4GCM.ctr_loop self ciphertext)).
    repeat split; assumption || reflexivity.
  - cbn [mraise fst In]. intros [Hin|[Hin|[]]]; discriminate Hin.
Qed.

Lemma decrypt_outputs_after_verification_witness :
  exists ic mask h g rest,
    initial_counter sample_session = Some ic /\
    encrypt_block (sm4 sample_session) ic = inr mask /\
    H sample_session = Some h /\
    SM4GCM._ghash sample_auth_data sample_ciphertext h = inr g /\
    SM4GCM._constant_time_compare (padded_tag (xor_bytes sample_tag mask)) g = true /\
    fst (SM4GCM.decrypt sample_session sample_ciphertext sample_tag sample_auth_data)
    = EncryptBlock ic :: Compare (padded_tag (xor_bytes sample_tag mask)) g :: rest.
Proof.
  apply (decrypt_outputs_after_verification sample_session sample_ciphertext sample_tag
           sample_auth_data (firstn 16 sample_plaintext)).
  vm_compute. do 3 right. left. reflexivity.
Defined.

Lemma cipher_inputs_app (l1 l2 : list event) :
  cipher_inputs (l1 ++ l2) = cipher_inputs l1 ++ cipher_inputs l2.
Proof.
  induction l1 as [|[b|a b|c] l1 IH]; cbn [app cipher_inputs]; rewrite ?IH; reflexivity.
Qed.

Lemma ctr_step_log (self : SM4GCM_obj) (data : bytes) (i : nat)
  (out counter : bytes) (st : bytes * bytes) :
  snd (SM4GCM.ctr_step self data i (out, counter)) = inr st ->
  cipher_inputs (fst (SM4GCM.ctr_step self data i (out, counter))) = [counter] /\
  SM4GCM._increment_counter counter = inr (snd st).
Proof.
  intros Hst. destruct (ctr_step_inv _ _ _ _ _ _ Hst) as (ks & c' & Hks & Hinc & ->).
  cbn [snd]. split; [|assumption].
  unfold SM4GCM.ctr_step. rewrite cipher_call_snd.
  rewrite (mbind_ok _ _ ks) by exact Hks. cbn [fst snd].
  rewrite (mbind_ok (emit _) _ tt) by reflexivity. cbn [emit fst].
  rewrite (mbind_ok (lift (SM4GCM._increment_counter counter)) _ c')
    by (cbn [lift snd]; exact Hinc).
  reflexivity.
Qed.

Lemma ctr_items_log (self : SM4GCM_obj) (data : bytes) (items : list nat)
  (out counter : bytes) (st : bytes * bytes) :
  snd (for_eachM items (SM4GCM.ctr_step self data) (out, counter)) = inr st ->
  cipher_inputs (fst (for_eachM items (SM4GCM.ctr_step self data) (out, counter)))
  = counters counter (length items).
Proof.
  revert out counter. induction items as [|i items IH]; intros out counter;
    cbn [for_eachM length counters].
  - intros _. reflexivity.
  - intros (s' & Hstep & Hrest)%mbind_snd_inr.
    rewrite (mbind_ok _ _ s') by exact Hstep. cbn [fst].
    destruct (ctr_step_log _ _ _ _ _ _ Hstep) as [Hlog Hinc].
    rewrite cipher_inputs_app, Hlog, Hinc. destruct s' as [out' c'].
    cbn [snd app]. f_equal. apply (IH out' c'). exact Hrest.
Qed.

Lemma range16_length (n : nat) : length (range16 n) = blocks n.
Proof. unfold range16, blocks. rewrite length_map, length_seq. reflexivity. Qed.

(** A call of [encrypt] that returns has called the block cipher once per
    16 bytes of plaintext, begun or complete, on the initial counter and then
    on each value [_increment_counter] gives in turn, and, last, once more on
    the initial counter for the tag. *)
Theorem encrypt_cipher_calls
  (self : SM4GCM_obj) (plaintext auth_data ciphertext tag : bytes) :
  snd (SM4GCM.encrypt self plaintext auth_data) = inr (ciphertext, tag) ->
  exists ic,
    initial_counter self = Some ic /\
    cipher_inputs (fst (SM4GCM.encrypt self plaintext auth_data))
    = counters ic (blocks (length plaintext)) ++ [ic].
Proof.
  unfold SM4GCM.encrypt. cbv zeta.
  intros (ct & Hloop & Hrest)%mbind_snd_inr.
  rewrite (mbind_ok _ _ ct) by exact Hloop. cbn [fst].
  apply mbind_snd_inr in Hrest. destruct Hrest as (h & Hh & Hrest).
  rewrite (mbind_ok _ _ h) by exact Hh.
  apply mbind_snd_inr in Hrest. destruct Hrest as (g & Hg & Hrest).
  rewrite (mbind_ok _ _ g) by exact Hg.
  apply mbind_snd_inr in Hrest. destruct Hrest as (ic & Hic & Hrest).
  rewrite (mbind_ok _ _ ic) by exact Hic.
  rewrite cipher_call_snd in Hrest |- *.
  apply mbind_snd_inr in Hrest. destruct Hrest as (mask & Hmask & _).
  rewrite (mbind_ok _ _ mask) by exact Hmask.
  cbn [lift fst snd mret app] in *.
  destruct (initial_counter self) as [ic'|] eqn:Hattr; [|discriminate Hic].
  cbn [getattr] in Hic. injection Hic as ->.
  exists ic. split; [reflexivity|].
  rewrite cipher_inputs_app. cbn [cipher_inputs]. f_equal.
  unfold SM4GCM.ctr_loop in Hloop |- *. rewrite Hattr in Hloop |- *.
  cbn [getattr] in Hloop |- *. rewrite mbind_lift in Hloop |- *.
  apply mbind_snd_inr in Hloop. destruct Hloop as (st & Hitems & _).
  rewrite (mbind_ok _ _ st) by exact Hitems. cbn [mret fst]. rewrite app_nil_r.
  rewrite (ctr_items_log _ _ _ _ _ _ Hitems), range16_length. reflexivity.
Qed.

Lemma encrypt_cipher_calls_witness :
  exists ic,
    initial_counter sample_session = Some ic /\
    cipher_inputs (fst (SM4GCM.encrypt sample_session sample_plaintext sample_auth_data))
    = counters ic (blocks (length sample_plaintext)) ++ [ic].
Proof.
  apply (encrypt_cipher_calls sample_session sample_plaintext sample_auth_data
           sample_ciphertext sample_tag).
  vm_compute. reflexivity.
Defined.

(** What [encrypt] returns has the length of what it was given: the
    ciphertext is as long as the plaintext, also when that is not a multiple
    of 16, and for a tag length that is not negative the tag has that many
    bytes, but never more than 16. *)
Theorem encrypt_output_lengths
  (self : SM4GCM_obj) (plaintext auth_data ciphertext tag : bytes) :
  0 <= tag_length self ->
  snd (SM4GCM.encrypt self plaintext auth_data) = inr (ciphertext, tag) ->
  length ciphertext = length plaintext /\
  Z.of_nat (length tag) = Z.min (tag_length self) 16.
Proof.
  intros Htl Henc.
  destruct (encrypt_inv _ _ _ _ _ Henc)
    as (ic & K & cfin & h & g & mask & Hic & HK & -> & Hh & Hg & Hmask & ->).
  pose proof (keystream_length _ _ _ _ _ HK) as HlenK.
  pose proof (blocks_cover (length plaintext)) as Hcover. unfold blocks in HlenK.
  pose proof (ghash_length _ _ _ _ Hg) as Hlg.
  pose proof (encrypt_block_length _ _ _ Hmask) as Hlm.
  split.
  - rewrite xor_bytes_length. lia.
  - unfold slice_to. destruct (Z.ltb_spec (tag_length self) 0); [lia|].
    rewrite length_firstn, xor_bytes_length, Hlg, Hlm. lia.
Qed.

Lemma encrypt_output_lengths_witness :
  length (fst (encrypted (sample_session_with 40) sample_plaintext sample_auth_data))
  = length sample_plaintext /\
  Z.of_nat (length (snd (encrypted (sample_session_with 40) sample_plaintext sample_auth_data)))
  = Z.min (tag_length (sample_session_with 40)) 16.
Proof.
  apply (encrypt_output_lengths (sample_session_with 40) sample_plaintext sample_auth_data
           (fst (encrypted (sample_session_with 40) sample_plaintext sample_auth_data))
           (snd (encrypted (sample_session_with 40) sample_plaintext sample_auth_data))).
  - cbn. lia.
  - vm_compute. reflexivity.
Defined.
